(** * The tap registry of the orb BDD test-suite

    A shallow embedding of [python-test/features/steps/taps.py] (class
    [Taps]) together with the properties of its operations.

    The registry [self.taps] is a Python dictionary from tap names to tap
    records; it is modelled by a [gmap] keyed by strings.  Every method of
    the class mutates that dictionary in place and may raise, so a method
    is a computation in a state-and-exception monad whose state is the
    registry: the state reached when an exception is raised is kept, the
    way a mutation done before a Python exception stays visible to the
    caller.

    A [gmap] has no insertion order.  The order of a Python dictionary
    shows in [json.dumps(self.taps)] and in the order in which the loops of
    [add_tag] and [remove_tag] visit the taps; the first is not modelled,
    and the second does not change what the loops leave, since each turn
    rewrites the record of its own tap (lemma [foldl_alter_keys]).  The
    attributes that the add-variant methods set on [self] besides
    [self.taps] ([self.name], [self.iface], ...) are read by the method
    that sets them only, and are its local definitions here. *)

From stdpp Require Import gmap strings list fin_maps.

Local Open Scope string_scope.

(** ** Values and records *)

(** The scalar values a fixture stores under a configuration, filter or
    tag key: [None], booleans, integers and strings. *)
Inductive value : Type :=
  | VNone
  | VBool (b : bool)
  | VInt (n : Z)
  | VStr (s : string).

#[global] Instance value_eq_dec : EqDecision value.
Proof. solve_decision. Defined.

(** A [config], [filter] or [tags] dictionary, and a [**kwargs] one. *)
Abbreviation dict := (gmap string value).

(** A tap record is the inner dictionary [self.taps[name]].  The class
    writes it under four literal keys only: ["input_type"] (a string) and
    ["config"], ["filter"], ["tags"] (dictionaries); each of them can be
    missing, which is the [None] of the field. *)
Record tap : Type := Tap {
  input_type : option string;
  config : option dict;
  filter : option dict;
  tags : option dict
}.

#[global] Instance tap_eq_dec : EqDecision tap.
Proof. solve_decision. Defined.

Definition set_input_type (x : option string) (t : tap) : tap :=
  Tap x (config t) (filter t) (tags t).
Definition set_config (x : option dict) (t : tap) : tap :=
  Tap (input_type t) x (filter t) (tags t).
Definition set_filter (x : option dict) (t : tap) : tap :=
  Tap (input_type t) (config t) x (tags t).
Definition set_tags (x : option dict) (t : tap) : tap :=
  Tap (input_type t) (config t) (filter t) x.

(** [key in record.keys()] *)
Definition tap_has (key : string) (t : tap) : bool :=
  if decide (key = "input_type") then bool_decide (is_Some (input_type t))
  else if decide (key = "config") then bool_decide (is_Some (config t))
  else if decide (key = "filter") then bool_decide (is_Some (filter t))
  else if decide (key = "tags") then bool_decide (is_Some (tags t))
  else false.

(** [record.pop(key, None)]: the entry under [key] is dropped when there
    is one, and nothing is raised when there is none. *)
Definition tap_pop (key : string) (t : tap) : tap :=
  if decide (key = "input_type") then set_input_type None t
  else if decide (key = "config") then set_config None t
  else if decide (key = "filter") then set_filter None t
  else if decide (key = "tags") then set_tags None t
  else t.

(** The registry [self.taps]. *)
Abbreviation registry := (gmap string tap).

(** [list(self.taps.keys())] *)
Definition keys (taps : registry) : list string := (map_to_list taps).*1.

(** ** Exceptions and the monad of the methods *)

Inductive exn : Type :=
  | AssertionError   (* a failed [assert_that] *)
  | KeyError.        (* a subscript on a missing key; a [LookupError] *)

#[global] Instance exn_eq_dec : EqDecision exn.
Proof. solve_decision. Defined.

(** A computation takes the registry and gives either the exception it
    raised or its result, with the registry it left behind. *)
Definition M (A : Type) : Type := registry → (exn + A) * registry.

#[global] Instance M_ret : MRet M := λ A x taps, (inr x, taps).
#[global] Instance M_bind : MBind M := λ A B f m taps,
  match m taps with
  | (inl e, taps') => (inl e, taps')
  | (inr x, taps') => f x taps'
  end.

Definition raise {A : Type} (e : exn) : M A := λ taps, (inl e, taps).
Definition get_taps : M registry := λ taps, (inr taps, taps).
Definition put_taps (taps' : registry) : M unit := λ _, (inr (), taps').

(** [assert_that(actual, matcher)] with the matcher already evaluated. *)
Definition assert_that (ok : bool) : M unit :=
  if ok then mret () else raise AssertionError.

(** [self.taps[name]] read: [KeyError] when the name is not registered. *)
Definition taps_getitem (name : string) : M tap := λ taps,
  match taps !! name with
  | Some t => (inr t, taps)
  | None => (inl KeyError, taps)
  end.

(** A store into the record [self.taps[name]], which is reached through
    the same subscript. *)
Definition taps_setitem (name : string) (t : tap) : M unit := λ taps,
  match taps !! name with
  | Some _ => (inr (), <[name := t]> taps)
  | None => (inl KeyError, taps)
  end.

(** [record[key]] on a field that may be missing. *)
Definition getitem {A : Type} (field : option A) : M A :=
  match field with
  | Some x => mret x
  | None => raise KeyError
  end.

(** [for x in l: body] *)
Fixpoint for_each {A : Type} (l : list A) (body : A → M unit) : M unit :=
  match l with
  | [] => mret ()
  | x :: l' => body x;; for_each l' body
  end.

(** ** The helpers of [UtilsManager] *)

Module UtilsManager.

(** Modelled from the spec: [UtilsManager.add_configs] of [utils.py],
    which is not among the sources.  "Given an existing mapping and a
    set of named key/value pairs, returns the updated mapping": every
    supplied pair is merged in, "overwriting existing keys, adding new
    ones". *)
Definition add_configs (config_object : dict) (kwargs : dict) : dict :=
  kwargs ∪ config_object.

(** Modelled from the spec: [UtilsManager.add_filters] of [utils.py],
    "same contract as addConfig but targets the filter map". *)
Definition add_filters (filter_object : dict) (kwargs : dict) : dict :=
  kwargs ∪ filter_object.

(** Modelled from the spec: [UtilsManager.remove_configs] of [utils.py]:
    "removes each named key from that tap's config map if present (no
    error if a key is already absent)". *)
Definition remove_configs (config_object : dict) (args : list string) : dict :=
  foldl (λ d key, delete key d) config_object args.

(** Modelled from the spec: [UtilsManager.remove_filters] of [utils.py],
    "same contract, targeting filter". *)
Definition remove_filters (filter_object : dict) (args : list string) : dict :=
  foldl (λ d key, delete key d) filter_object args.

(** One singleton mapping [{key: value}] of a configs or filters list,
    merged into the map: the value may be [None]. *)
Definition merge_supplied (d : dict) (pair : string * value) : dict :=
  <[pair.1 := pair.2]> d.

(** Modelled from the spec:
    [UtilsManager.update_object_with_filters_and_configs] of [utils.py],
    which is not among the sources.  It "merges in the supplied config
    key/value pairs and filter key/value pairs (each pair supplied as a
    singleton mapping)" into [object[name]["config"]] and
    [object[name]["filter"]].  "No validation of value types is
    performed; absent keyword values are stored as null": the singleton
    mapping of a key that the caller did not pass holds [None], and is
    merged like the others, there being "no implicit pruning of null
    values". *)
Definition update_object_with_filters_and_configs
    (object : registry) (name : string)
    (configs_list filters_list : list (string * value)) : registry :=
  alter (λ t,
    set_filter ((λ d, foldl merge_supplied d filters_list) <$> filter t)
      (set_config ((λ d, foldl merge_supplied d configs_list) <$> config t) t))
    name object.

End UtilsManager.

(** ** The class [Taps] *)

Module Taps.


(** [kwargs.get(key)]: the value passed under [key], [None] without. *)
Definition kwargs_get (kwargs : dict) (key : string) : value :=
  default VNone (kwargs !! key).

(** [Taps.__build_tap] *)
Definition __build_tap (name input_type : string)
    (configs_list filters_list : list (string * value)) : M unit :=
  let tap : registry :=
    {[ name := Tap (Some input_type) (Some ∅) (Some ∅) None ]} in
  let tap := UtilsManager.update_object_with_filters_and_configs
               tap name configs_list filters_list in
  taps ← get_taps;
  put_taps (tap ∪ taps).

Definition add_pcap (name : string) (kwargs : dict) : M registry :=
  let pcap_file := ("pcap_file", kwargs_get kwargs "pcap_file") in
  let pcap_source := ("pcap_source", kwargs_get kwargs "pcap_source") in
  let iface := ("iface", kwargs_get kwargs "iface") in
  let host_spec := ("host_spec", kwargs_get kwargs "host_spec") in
  let debug := ("debug", kwargs_get kwargs "debug") in
  let bpf := ("bpf", kwargs_get kwargs "bpf") in
  let pcap_configs := [pcap_file; pcap_source; iface; host_spec; debug] in
  let pcap_filters := [bpf] in
  __build_tap name "pcap" pcap_configs pcap_filters;;
  get_taps.

Definition add_flow (name : string) (kwargs : dict) : M registry :=
  let pcap_file := ("pcap_file", kwargs_get kwargs "pcap_file") in
  let port := ("port", kwargs_get kwargs "port") in
  let bind := ("bind", kwargs_get kwargs "bind") in
  let flow_type := ("flow_type", kwargs_get kwargs "flow_type") in
  let flow_configs := [pcap_file; port; bind; flow_type] in
  let flow_filters := [] in
  __build_tap name "flow" flow_configs flow_filters;;
  get_taps.

Definition add_dnstap (name : string) (kwargs : dict) : M registry :=
  let dnstap_file := ("dnstap_file", kwargs_get kwargs "dnstap_file") in
  let socket := ("socket", kwargs_get kwargs "socket") in
  let tcp := ("tcp", kwargs_get kwargs "tcp") in
  let only_hosts := ("only_hosts", kwargs_get kwargs "only_hosts") in
  let dnstap_configs := [dnstap_file; socket; tcp] in
  let dnstap_filters := [only_hosts] in
  __build_tap name "dnstap" dnstap_configs dnstap_filters;;
  get_taps.

Definition add_configs (name : string) (kwargs : dict) : M registry :=
  t ← taps_getitem name;
  (if negb (tap_has "config" t)
   then taps_setitem name (set_config (Some ∅) t)
   else mret ());;
  t ← taps_getitem name;
  config_object ← getitem (config t);
  taps_setitem name
    (set_config (Some (UtilsManager.add_configs config_object kwargs)) t);;
  get_taps.

Definition add_filters (name : string) (kwargs : dict) : M registry :=
  t ← taps_getitem name;
  (if negb (tap_has "filter" t)
   then taps_setitem name (set_filter (Some ∅) t)
   else mret ());;
  t ← taps_getitem name;
  filter_object ← getitem (filter t);
  taps_setitem name
    (set_filter (Some (UtilsManager.add_filters filter_object kwargs)) t);;
  get_taps.

(** The names an [add_tag] or a [remove_tag] goes through: the
    [if tap_name == "all": ... else: ...] that both methods start with. *)
Definition tap_names (taps : registry) (tap_name : string) : list string :=
  if decide (tap_name = "all") then keys taps else [tap_name].

(** The body of the loops of [add_tag], for one tap and one tag. *)
Definition add_tag_body (tap_name : string) (item : string * value) : M unit :=
  let tag_key := item.1 in
  let tag_value := item.2 in
  t ← taps_getitem tap_name;
  if tap_has "tags" t then
    d ← getitem (tags t);
    taps_setitem tap_name (set_tags (Some (<[tag_key := tag_value]> d)) t)
  else
    taps_setitem tap_name (set_tags (Some {[tag_key := tag_value]}) t).

Definition add_tag (tap_name : string) (tag_items : dict) : M registry :=
  taps ← get_taps;
  assert_that (bool_decide (tap_name ∈ keys taps)
               || bool_decide (tap_name = "all"));;
  for_each (tap_names taps tap_name) (λ tap_name,
    for_each (map_to_list tag_items) (add_tag_body tap_name));;
  get_taps.

Definition remove_tap (name : string) : M registry :=
  taps ← get_taps;
  assert_that (bool_decide (name ∈ keys taps));;
  put_taps (delete name taps);;
  get_taps.

Definition remove_configs (name : string) (args : list string) : M registry :=
  taps ← get_taps;
  assert_that (bool_decide (name ∈ keys taps));;
  t ← taps_getitem name;
  config_object ← getitem (config t);
  taps_setitem name
    (set_config (Some (UtilsManager.remove_configs config_object args)) t);;
  get_taps.

Definition remove_filter (name : string) (args : list string) : M registry :=
  taps ← get_taps;
  assert_that (bool_decide (name ∈ keys taps));;
  t ← taps_getitem name;
  filter_object ← getitem (filter t);
  taps_setitem name
    (set_filter (Some (UtilsManager.remove_filters filter_object args)) t);;
  get_taps.

(** The body of the loops of [remove_tag], for one tap and one key: the
    [pop] is on the record [self.taps[tap_name]]. *)
Definition remove_tag_body (tap_name tag_key : string) : M unit :=
  t ← taps_getitem tap_name;
  if tap_has "tags" t then taps_setitem tap_name (tap_pop tag_key t)
  else mret ().

Definition remove_tag (tap_name : string) (tags_keys : list string) : M registry :=
  taps ← get_taps;
  assert_that (bool_decide (tap_name ∈ keys taps)
               || bool_decide (tap_name = "all"));;
  for_each (tap_names taps tap_name) (λ tap_name,
    for_each tags_keys (remove_tag_body tap_name));;
  get_taps.

End Taps.

(** ** What the methods do to one record *)

(** The record that [__build_tap] stores under the name. *)
Definition built_tap (input_type : string)
    (configs_list filters_list : list (string * value)) : tap :=
  Tap (Some input_type)
      (Some (foldl UtilsManager.merge_supplied ∅ configs_list))
      (Some (foldl UtilsManager.merge_supplied ∅ filters_list))
      None.

(** One turn of the inner loop of [add_tag] on the record of the tap. *)
Definition add_tag_record (t : tap) (item : string * value) : tap :=
  match tags t with
  | Some d => set_tags (Some (<[item.1 := item.2]> d)) t
  | None => set_tags (Some {[item.1 := item.2]}) t
  end.

(** One turn of the inner loop of [remove_tag] on the record of the tap. *)
Definition remove_tag_record (t : tap) (tag_key : string) : tap :=
  match tags t with
  | Some _ => tap_pop tag_key t
  | None => t
  end.

(** The tag stored under [key] in a record, if any. *)
Definition tag_of (key : string) (t : tap) : option value :=
  tags t ≫= (.!! key).

(** ** Calls *)

(** The three add-variant methods. *)
Inductive variant : Type := Pcap | Flow | Dnstap.

Definition add_variant (v : variant) : string → dict → M registry :=
  match v with
  | Pcap => Taps.add_pcap
  | Flow => Taps.add_flow
  | Dnstap => Taps.add_dnstap
  end.

(** The keys that each add-variant method reads from its [**kwargs]. *)
Definition config_keys (v : variant) : list string :=
  match v with
  | Pcap => ["pcap_file"; "pcap_source"; "iface"; "host_spec"; "debug"]
  | Flow => ["pcap_file"; "port"; "bind"; "flow_type"]
  | Dnstap => ["dnstap_file"; "socket"; "tcp"]
  end.

Definition filter_keys (v : variant) : list string :=
  match v with
  | Pcap => ["bpf"]
  | Flow => []
  | Dnstap => ["only_hosts"]
  end.

Definition input_type_label (v : variant) : string :=
  match v with
  | Pcap => "pcap"
  | Flow => "flow"
  | Dnstap => "dnstap"
  end.

(** A call of one of the methods of the class that change the registry. *)
Inductive call : Type :=
  | Add (v : variant) (name : string) (kwargs : dict)
  | AddConfigs (name : string) (kwargs : dict)
  | AddFilters (name : string) (kwargs : dict)
  | AddTag (tap_name : string) (tag_items : dict)
  | RemoveTap (name : string)
  | RemoveConfigs (name : string) (args : list string)
  | RemoveFilter (name : string) (args : list string)
  | RemoveTag (tap_name : string) (tags_keys : list string).

Definition run (c : call) : M registry :=
  match c with
  | Add v name kwargs => add_variant v name kwargs
  | AddConfigs name kwargs => Taps.add_configs name kwargs
  | AddFilters name kwargs => Taps.add_filters name kwargs
  | AddTag tap_name tag_items => Taps.add_tag tap_name tag_items
  | RemoveTap name => Taps.remove_tap name
  | RemoveConfigs name args => Taps.remove_configs name args
  | RemoveFilter name args => Taps.remove_filter name args
  | RemoveTag tap_name tags_keys => Taps.remove_tag tap_name tags_keys
  end.

(** The tap that a call refers to and that has to be registered: none for
    an add-variant call, which registers its name, and none for a tag call
    on the sentinel ["all"]. *)
Definition referenced_tap (c : call) : option string :=
  match c with
  | Add _ _ _ => None
  | AddConfigs name _ | AddFilters name _ | RemoveTap name
  | RemoveConfigs name _ | RemoveFilter name _ => Some name
  | AddTag tap_name _ | RemoveTag tap_name _ =>
      if decide (tap_name = "all") then None else Some tap_name
  end.

(** The exception of a call on a tap that is not registered. *)
Definition not_found (c : call) : exn :=
  match c with
  | AddConfigs _ _ | AddFilters _ _ => KeyError
  | _ => AssertionError
  end.

(** A tag call on [tap_name] reaches the tap [name]. *)
Definition reaches (tap_name name : string) : bool :=
  bool_decide (tap_name = name) || bool_decide (tap_name = "all").

(** The record found under [name] after a call that returned, from the
    record found under [name] before it. *)
Definition record_after (c : call) (name : string) (o : option tap) : option tap :=
  match c with
  | Add v n kwargs =>
      if decide (n = name) then
        Some (built_tap (input_type_label v)
                ((λ key, (key, Taps.kwargs_get kwargs key)) <$> config_keys v)
                ((λ key, (key, Taps.kwargs_get kwargs key)) <$> filter_keys v))
      else o
  | AddConfigs n kwargs =>
      if decide (n = name) then
        (λ t, set_config
                (Some (UtilsManager.add_configs (default ∅ (config t)) kwargs)) t) <$> o
      else o
  | AddFilters n kwargs =>
      if decide (n = name) then
        (λ t, set_filter
                (Some (UtilsManager.add_filters (default ∅ (filter t)) kwargs)) t) <$> o
      else o
  | AddTag n tag_items =>
      if reaches n name then
        (λ t, foldl add_tag_record t (map_to_list tag_items)) <$> o
      else o
  | RemoveTap n => if decide (n = name) then None else o
  | RemoveConfigs n args =>
      if decide (n = name) then
        (λ t, set_config
                ((λ d, UtilsManager.remove_configs d args) <$> config t) t) <$> o
      else o
  | RemoveFilter n args =>
      if decide (n = name) then
        (λ t, set_filter
                ((λ d, UtilsManager.remove_filters d args) <$> filter t) t) <$> o
      else o
  | RemoveTag n tags_keys =>
      if reaches n name then (λ t, foldl remove_tag_record t tags_keys) <$> o
      else o
  end.

(** The two maps of a record that the configuration methods work on. *)
Inductive field : Type := Config | Filter.


Definition field_of (f : field) (t : tap) : option dict :=
  match f with Config => config t | Filter => filter t end.

(** The value stored under [key] in the [config] or [filter] map of the
    tap [name], if there is such a tap, map and key. *)
Definition entry (f : field) (name key : string) (taps : registry) : option value :=
  t ← taps !! name; d ← field_of f t; d !! key.


(** The calls under which the [tags] key of an existing tap [name] is not
    said to stay: a new creation of the tap, and a [remove_tag] that
    reaches the tap with ["tags"] among its keys. *)
Definition may_drop_tags (name : string) (c : call) : bool :=
  match c with
  | Add _ n _ => bool_decide (n = name)
  | RemoveTag n tags_keys => reaches n name && bool_decide ("tags" ∈ tags_keys)
  | _ => false
  end.

(** The calls of [add_tag] that reach the tap [name]. *)
Definition adds_tags_to (name : string) (c : call) : bool :=
  match c with
  | AddTag n _ => reaches n name
  | _ => false
  end.

(** ** Fixtures *)

(** [add_pcap("t1", iface="eth0", bpf="tcp port 80")] *)
Definition t1_kwargs : dict :=
  {[ "iface" := VStr "eth0"; "bpf" := VStr "tcp port 80" ]}.


(** A pcap record with one configuration key and one filter key. *)
Definition t1_entry : tap :=
  Tap (Some "pcap")
      (Some {[ "iface" := VStr "eth0" ]})
      (Some {[ "bpf" := VStr "tcp port 80" ]})
      None.

Definition t1_registry : registry := {[ "t1" := t1_entry ]}.

(** The same registry once ["t1"] carries the tag [team = net]. *)
Definition t1_tagged : registry :=
  {[ "t1" := set_tags (Some {[ "team" := VStr "net" ]}) t1_entry ]}.

(** ** More about calls *)

(** The call is on the tap [name], or is a tag call on ["all"]. *)
Definition call_reaches (c : call) (name : string) : bool :=
  match c with
  | Add _ n _ | AddConfigs n _ | AddFilters n _ | RemoveTap n
  | RemoveConfigs n _ | RemoveFilter n _ => bool_decide (n = name)
  | AddTag n _ | RemoveTag n _ => reaches n name
  end.

(** The registered names after a call, from the names before it. *)
Definition names_after (c : call) (names : gset string) : gset string :=
  match c with
  | Add _ n _ => {[ n ]} ∪ names
  | RemoveTap n => names ∖ {[ n ]}
  | _ => names
  end.

(** The calls under which the [input_type] of an existing tap [name] is
    not said to stay: a new creation of the tap, and a [remove_tag] that
    reaches the tap with ["input_type"] among its keys. *)
Definition may_change_input_type (name : string) (c : call) : bool :=
  match c with
  | Add _ n _ => bool_decide (n = name)
  | RemoveTag n tags_keys =>
      reaches n name && bool_decide ("input_type" ∈ tags_keys)
  | _ => false
  end.

(** The method that merges into the map [f], and the one that removes
    keys from it. *)
Definition add_to (f : field) : string → dict → M registry :=
  match f with Config => Taps.add_configs | Filter => Taps.add_filters end.

Definition remove_from (f : field) : string → list string → M registry :=
  match f with Config => Taps.remove_configs | Filter => Taps.remove_filter end.

(** The keys that an add-variant method reads from its [**kwargs]. *)
Definition read_keys (v : variant) : list string :=
  config_keys v ++ filter_keys v.

(** The map that a configuration call stores into. *)
Definition written_field (c : call) : option field :=
  match c with
  | AddConfigs _ _ | RemoveConfigs _ _ => Some Config
  | AddFilters _ _ | RemoveFilter _ _ => Some Filter
  | _ => None
  end.

(** A registry in which a tap is named ["all"], next to ["t1"]. *)
Definition all_and_t1 : registry :=
  {[ "all" := Tap (Some "flow") (Some {[ "port" := VInt 2055 ]}) (Some ∅) None;
     "t1" := t1_entry ]}.

Import Taps.

(** * Properties *)

(** ** Running the monad *)

Lemma bind_run {A B : Type} (m : M A) (f : A → M B) (taps : registry) :
  (m ≫= f) taps =
  match m taps with
  | (inl e, taps') => (inl e, taps')
  | (inr x, taps') => f x taps'
  end.
Proof. reflexivity. Qed.

Lemma taps_getitem_Some name t (taps : registry) :
  taps !! name = Some t → taps_getitem name taps = (inr t, taps).
Proof. intros H. unfold taps_getitem. by rewrite H. Qed.

Lemma taps_getitem_None name (taps : registry) :
  taps !! name = None → taps_getitem name taps = (inl KeyError, taps).
Proof. intros H. unfold taps_getitem. by rewrite H. Qed.

Lemma taps_setitem_Some name t t' (taps : registry) :
  taps !! name = Some t → taps_setitem name t' taps = (inr (), <[name := t']> taps).
Proof. intros H. unfold taps_setitem. by rewrite H. Qed.

Lemma tap_has_tags t : tap_has "tags" t = bool_decide (is_Some (tags t)).
Proof. reflexivity. Qed.

Lemma tap_has_config t : tap_has "config" t = bool_decide (is_Some (config t)).
Proof. reflexivity. Qed.

Lemma tap_has_filter t : tap_has "filter" t = bool_decide (is_Some (filter t)).
Proof. reflexivity. Qed.

(** ** The registered names *)

Lemma elem_of_keys (taps : registry) name :
  name ∈ keys taps ↔ is_Some (taps !! name).
Proof.
  unfold keys. rewrite list_elem_of_fmap. split.
  - intros [[n t] [-> Hin]]. apply elem_of_map_to_list in Hin. by exists t.
  - intros [t Ht]. exists (name, t). split; [done|]. by apply elem_of_map_to_list.
Qed.

Lemma NoDup_keys (taps : registry) : NoDup (keys taps).
Proof. apply NoDup_fst_map_to_list. Qed.

Lemma keys_registered (taps : registry) name :
  bool_decide (name ∈ keys taps) = bool_decide (is_Some (taps !! name)).
Proof. apply bool_decide_ext, elem_of_keys. Qed.

(** ** Loops *)

(** A loop whose body is a pure update of the registry, as long as an
    invariant holds, is the fold of that update. *)
Lemma for_each_pure {A : Type} (I : registry → Prop)
    (f : A → registry → registry) (body : A → M unit) (l : list A) :
  (∀ x taps, x ∈ l → I taps → body x taps = (inr (), f x taps) ∧ I (f x taps)) →
  ∀ taps, I taps →
    for_each l body taps = (inr (), foldl (λ s x, f x s) taps l)
    ∧ I (foldl (λ s x, f x s) taps l).
Proof.
  induction l as [|x l IH]; intros Hbody taps HI; [done|].
  destruct (Hbody x taps) as [Hx HI']; [by left|done|].
  cbn [for_each foldl]. rewrite bind_run, Hx.
  apply IH; [|done]. intros y s Hy. apply Hbody. by right.
Qed.

Lemma foldl_alter_same {A : Type} (g : A → tap → tap) name (l : list A) :
  ∀ taps : registry,
    foldl (λ s x, alter (g x) name s) taps l
    = alter (λ t, foldl (λ t x, g x t) t l) name taps.
Proof.
  induction l as [|x l IH]; intros taps; cbn [foldl].
  - symmetry. by apply alter_id.
  - by rewrite IH, alter_alter_eq.
Qed.

Lemma foldl_alter_lookup (F : tap → tap) (l : list string) :
  NoDup l → ∀ (taps : registry) name,
    foldl (λ s n, alter F n s) taps l !! name
    = if decide (name ∈ l) then F <$> taps !! name else taps !! name.
Proof.
  induction 1 as [|x l Hx Hl IH]; intros taps name; cbn [foldl].
  - rewrite decide_False; [done|]. apply not_elem_of_nil.
  - rewrite IH. destruct (decide (name = x)) as [->|Hne].
    + rewrite (decide_False _ _ Hx), decide_True by left. by rewrite lookup_alter_eq.
    + rewrite lookup_alter_ne by done.
      destruct (decide (name ∈ l)) as [Hin|Hin].
      * by rewrite decide_True by by right.
      * rewrite decide_False; [done|]. by intros [?|?]%elem_of_cons.
Qed.

Lemma foldl_alter_keys (F : tap → tap) (taps : registry) :
  foldl (λ s n, alter F n s) taps (keys taps) = F <$> taps.
Proof.
  apply map_eq. intros name.
  rewrite foldl_alter_lookup by apply NoDup_keys. rewrite lookup_fmap.
  case_decide as Hin; [done|].
  rewrite elem_of_keys, <- eq_None_not_Some in Hin. by rewrite Hin.
Qed.

(** Two nested loops, over names and over items, whose body rewrites the
    record of the name. *)
Lemma for_each_records {A : Type} (g : tap → A → tap)
    (body : string → A → M unit) (l : list A) (names : list string) :
  (∀ n x t (taps : registry),
     taps !! n = Some t → body n x taps = (inr (), <[n := g t x]> taps)) →
  ∀ taps : registry, (∀ n, n ∈ names → is_Some (taps !! n)) →
    for_each names (λ n, for_each l (body n)) taps
    = (inr (), foldl (λ s n, alter (λ t, foldl g t l) n s) taps names).
Proof.
  intros Hbody taps Hreg.
  refine (proj1 (for_each_pure (λ s, ∀ n, n ∈ names → is_Some (s !! n))
    (λ n s, alter (λ t, foldl g t l) n s) _ names _ taps Hreg)).
  intros n s Hn Hs. split.
  - rewrite <- foldl_alter_same.
    refine (proj1 (for_each_pure (λ s, is_Some (s !! n))
      (λ x s, alter (λ t, g t x) n s) _ l _ s (Hs n Hn))).
    intros x s' _ [t Ht]. split.
    + rewrite (Hbody _ _ _ _ Ht). by rewrite (alter_alt_Some _ _ _ _ Ht).
    + rewrite lookup_alter_eq, Ht. by eexists.
  - intros n' Hn'. apply lookup_alter_is_Some. by apply Hs.
Qed.

Lemma add_tag_body_run name item t (taps : registry) :
  taps !! name = Some t →
  add_tag_body name item taps = (inr (), <[name := add_tag_record t item]> taps).
Proof.
  intros Ht. unfold add_tag_body, add_tag_record.
  rewrite bind_run, (taps_getitem_Some _ _ _ Ht), tap_has_tags.
  destruct (tags t) as [d|] eqn:Hd; cbn.
  - by rewrite bind_run; cbn; rewrite (taps_setitem_Some _ _ _ _ Ht).
  - by rewrite (taps_setitem_Some _ _ _ _ Ht).
Qed.

Lemma remove_tag_body_run name tag_key t (taps : registry) :
  taps !! name = Some t →
  remove_tag_body name tag_key taps
  = (inr (), <[name := remove_tag_record t tag_key]> taps).
Proof.
  intros Ht. unfold remove_tag_body, remove_tag_record.
  rewrite bind_run, (taps_getitem_Some _ _ _ Ht), tap_has_tags.
  destruct (tags t) as [d|] eqn:Hd; cbn.
  - by rewrite (taps_setitem_Some _ _ _ _ Ht).
  - by rewrite insert_id.
Qed.

(** ** The methods as functions of the registry *)

Lemma tap_names_registered (taps : registry) tap_name :
  is_Some (taps !! tap_name) ∨ tap_name = "all" →
  ∀ n, n ∈ tap_names taps tap_name → is_Some (taps !! n).
Proof.
  intros Hvalid n. unfold tap_names. case_decide as Hall.
  - apply elem_of_keys.
  - intros ->%list_elem_of_singleton. by destruct Hvalid.
Qed.

Lemma foldl_alter_tap_names (F : tap → tap) (taps : registry) tap_name :
  foldl (λ s n, alter F n s) taps (tap_names taps tap_name)
  = if decide (tap_name = "all") then F <$> taps else alter F tap_name taps.
Proof.
  unfold tap_names. case_decide; [apply foldl_alter_keys|done].
Qed.

Lemma assert_that_run (ok : bool) (taps : registry) :
  assert_that ok taps = if ok then (inr (), taps) else (inl AssertionError, taps).
Proof. by destruct ok. Qed.

Lemma add_tag_run tap_name (tag_items : dict) (taps : registry) :
  add_tag tap_name tag_items taps =
  if decide (tap_name = "all") then
    let taps' := (λ t, foldl add_tag_record t (map_to_list tag_items)) <$> taps in
    (inr taps', taps')
  else if decide (is_Some (taps !! tap_name)) then
    let taps' :=
      alter (λ t, foldl add_tag_record t (map_to_list tag_items)) tap_name taps in
    (inr taps', taps')
  else (inl AssertionError, taps).
Proof.
  unfold add_tag. rewrite bind_run. cbn [get_taps].
  rewrite bind_run, assert_that_run, keys_registered.
  destruct (decide (tap_name = "all")) as [Hall|Hall];
    [|destruct (decide (is_Some (taps !! tap_name))) as [Hreg|Hreg]].
  - rewrite (bool_decide_eq_true_2 (tap_name = "all")), orb_true_r by done.
    rewrite bind_run, (for_each_records add_tag_record);
      [|apply @add_tag_body_run|apply tap_names_registered; by right].
    by rewrite foldl_alter_tap_names, decide_True.
  - rewrite (bool_decide_eq_true_2 _ Hreg). cbn [orb].
    rewrite bind_run, (for_each_records add_tag_record);
      [|apply @add_tag_body_run|apply tap_names_registered; by left].
    by rewrite foldl_alter_tap_names, decide_False.
  - by rewrite (bool_decide_eq_false_2 _ Hreg), (bool_decide_eq_false_2 _ Hall).
Qed.

Lemma remove_tag_run tap_name (tags_keys : list string) (taps : registry) :
  remove_tag tap_name tags_keys taps =
  if decide (tap_name = "all") then
    let taps' := (λ t, foldl remove_tag_record t tags_keys) <$> taps in
    (inr taps', taps')
  else if decide (is_Some (taps !! tap_name)) then
    let taps' := alter (λ t, foldl remove_tag_record t tags_keys) tap_name taps in
    (inr taps', taps')
  else (inl AssertionError, taps).
Proof.
  unfold remove_tag. rewrite bind_run. cbn [get_taps].
  rewrite bind_run, assert_that_run, keys_registered.
  destruct (decide (tap_name = "all")) as [Hall|Hall];
    [|destruct (decide (is_Some (taps !! tap_name))) as [Hreg|Hreg]].
  - rewrite (bool_decide_eq_true_2 (tap_name = "all")), orb_true_r by done.
    rewrite bind_run, (for_each_records remove_tag_record);
      [|apply @remove_tag_body_run|apply tap_names_registered; by right].
    by rewrite foldl_alter_tap_names, decide_True.
  - rewrite (bool_decide_eq_true_2 _ Hreg). cbn [orb].
    rewrite bind_run, (for_each_records remove_tag_record);
      [|apply @remove_tag_body_run|apply tap_names_registered; by left].
    by rewrite foldl_alter_tap_names, decide_False.
  - by rewrite (bool_decide_eq_false_2 _ Hreg), (bool_decide_eq_false_2 _ Hall).
Qed.

Lemma build_tap_run name input_type configs_list filters_list (taps : registry) :
  __build_tap name input_type configs_list filters_list taps
  = (inr (), <[name := built_tap input_type configs_list filters_list]> taps).
Proof.
  unfold __build_tap, UtilsManager.update_object_with_filters_and_configs.
  rewrite bind_run. cbn [get_taps put_taps].
  by rewrite alter_singleton_eq, <- insert_union_singleton_l.
Qed.

Lemma remove_tap_run name (taps : registry) :
  remove_tap name taps =
  if decide (is_Some (taps !! name)) then (inr (delete name taps), delete name taps)
  else (inl AssertionError, taps).
Proof.
  unfold remove_tap. rewrite bind_run. cbn [get_taps].
  rewrite bind_run, assert_that_run, keys_registered.
  case_decide as Hreg.
  - by rewrite (bool_decide_eq_true_2 _ Hreg).
  - by rewrite (bool_decide_eq_false_2 _ Hreg).
Qed.

Lemma add_configs_run name (kwargs : dict) (taps : registry) :
  add_configs name kwargs taps =
  match taps !! name with
  | Some t =>
      let taps' :=
        <[name := set_config
           (Some (UtilsManager.add_configs (default ∅ (config t)) kwargs)) t]> taps in
      (inr taps', taps')
  | None => (inl KeyError, taps)
  end.
Proof.
  unfold add_configs. rewrite bind_run.
  destruct (taps !! name) as [t|] eqn:Ht;
    [rewrite (taps_getitem_Some _ _ _ Ht)|by rewrite (taps_getitem_None _ _ Ht)].
  rewrite bind_run, tap_has_config. destruct t as [ty [cfg|] flt tg]; cbn.
  - rewrite bind_run, (taps_getitem_Some _ _ _ Ht), bind_run. cbn.
    by rewrite bind_run, (taps_setitem_Some _ _ _ _ Ht).
  - rewrite (taps_setitem_Some _ _ _ _ Ht), bind_run.
    erewrite taps_getitem_Some by apply lookup_insert_eq.
    rewrite bind_run. cbn. rewrite bind_run.
    erewrite taps_setitem_Some by apply lookup_insert_eq.
    cbn. by rewrite insert_insert_eq.
Qed.

Lemma add_filters_run name (kwargs : dict) (taps : registry) :
  add_filters name kwargs taps =
  match taps !! name with
  | Some t =>
      let taps' :=
        <[name := set_filter
           (Some (UtilsManager.add_filters (default ∅ (filter t)) kwargs)) t]> taps in
      (inr taps', taps')
  | None => (inl KeyError, taps)
  end.
Proof.
  unfold add_filters. rewrite bind_run.
  destruct (taps !! name) as [t|] eqn:Ht;
    [rewrite (taps_getitem_Some _ _ _ Ht)|by rewrite (taps_getitem_None _ _ Ht)].
  rewrite bind_run, tap_has_filter. destruct t as [ty cfg [flt|] tg]; cbn.
  - rewrite bind_run, (taps_getitem_Some _ _ _ Ht), bind_run. cbn.
    by rewrite bind_run, (taps_setitem_Some _ _ _ _ Ht).
  - rewrite (taps_setitem_Some _ _ _ _ Ht), bind_run.
    erewrite taps_getitem_Some by apply lookup_insert_eq.
    rewrite bind_run. cbn. rewrite bind_run.
    erewrite taps_setitem_Some by apply lookup_insert_eq.
    cbn. by rewrite insert_insert_eq.
Qed.

Lemma remove_configs_run name (args : list string) (taps : registry) :
  remove_configs name args taps =
  match taps !! name with
  | Some t =>
      match config t with
      | Some config_object =>
          let taps' :=
            <[name := set_config
               (Some (UtilsManager.remove_configs config_object args)) t]> taps in
          (inr taps', taps')
      | None => (inl KeyError, taps)
      end
  | None => (inl AssertionError, taps)
  end.
Proof.
  unfold remove_configs. rewrite bind_run. cbn [get_taps].
  rewrite bind_run, assert_that_run, keys_registered.
  destruct (taps !! name) as [t|] eqn:Ht; [|done].
  rewrite bool_decide_eq_true_2 by by eexists.
  rewrite bind_run, (taps_getitem_Some _ _ _ Ht), bind_run.
  destruct (config t) as [d|]; cbn; [|done].
  by rewrite bind_run, (taps_setitem_Some _ _ _ _ Ht).
Qed.

Lemma remove_filter_run name (args : list string) (taps : registry) :
  remove_filter name args taps =
  match taps !! name with
  | Some t =>
      match filter t with
      | Some filter_object =>
          let taps' :=
            <[name := set_filter
               (Some (UtilsManager.remove_filters filter_object args)) t]> taps in
          (inr taps', taps')
      | None => (inl KeyError, taps)
      end
  | None => (inl AssertionError, taps)
  end.
Proof.
  unfold remove_filter. rewrite bind_run. cbn [get_taps].
  rewrite bind_run, assert_that_run, keys_registered.
  destruct (taps !! name) as [t|] eqn:Ht; [|done].
  rewrite bool_decide_eq_true_2 by by eexists.
  rewrite bind_run, (taps_getitem_Some _ _ _ Ht), bind_run.
  destruct (filter t) as [d|]; cbn; [|done].
  by rewrite bind_run, (taps_setitem_Some _ _ _ _ Ht).
Qed.

Lemma add_pcap_run name (kwargs : dict) (taps : registry) :
  add_pcap name kwargs taps =
  let taps' :=
    <[name := built_tap "pcap"
       [("pcap_file", kwargs_get kwargs "pcap_file");
        ("pcap_source", kwargs_get kwargs "pcap_source");
        ("iface", kwargs_get kwargs "iface");
        ("host_spec", kwargs_get kwargs "host_spec");
        ("debug", kwargs_get kwargs "debug")]
       [("bpf", kwargs_get kwargs "bpf")]]> taps in
  (inr taps', taps').
Proof. unfold add_pcap. by rewrite bind_run, build_tap_run. Qed.

Lemma add_flow_run name (kwargs : dict) (taps : registry) :
  add_flow name kwargs taps =
  let taps' :=
    <[name := built_tap "flow"
       [("pcap_file", kwargs_get kwargs "pcap_file");
        ("port", kwargs_get kwargs "port");
        ("bind", kwargs_get kwargs "bind");
        ("flow_type", kwargs_get kwargs "flow_type")]
       []]> taps in
  (inr taps', taps').
Proof. unfold add_flow. by rewrite bind_run, build_tap_run. Qed.

Lemma add_dnstap_run name (kwargs : dict) (taps : registry) :
  add_dnstap name kwargs taps =
  let taps' :=
    <[name := built_tap "dnstap"
       [("dnstap_file", kwargs_get kwargs "dnstap_file");
        ("socket", kwargs_get kwargs "socket");
        ("tcp", kwargs_get kwargs "tcp")]
       [("only_hosts", kwargs_get kwargs "only_hosts")]]> taps in
  (inr taps', taps').
Proof. unfold add_dnstap. by rewrite bind_run, build_tap_run. Qed.

(** ** What an add-variant call stores *)

Lemma add_variant_run v name (kwargs : dict) (taps : registry) :
  add_variant v name kwargs taps =
  let taps' :=
    <[name := built_tap (input_type_label v)
       ((λ key, (key, kwargs_get kwargs key)) <$> config_keys v)
       ((λ key, (key, kwargs_get kwargs key)) <$> filter_keys v)]> taps in
  (inr taps', taps').
Proof.
  destruct v; [apply add_pcap_run|apply add_flow_run|apply add_dnstap_run].
Qed.




(** ** Every call, seen from one name *)

Lemma reaches_all name : reaches "all" name = true.
Proof. unfold reaches. by rewrite orb_true_r. Qed.

Lemma reaches_other tap_name name :
  tap_name ≠ "all" → reaches tap_name name = bool_decide (tap_name = name).
Proof.
  intros H. unfold reaches. by rewrite (bool_decide_eq_false_2 _ H), orb_false_r.
Qed.

Lemma lookup_alter_reaches (F : tap → tap) (taps : registry) tap_name name :
  tap_name ≠ "all" →
  alter F tap_name taps !! name
  = if reaches tap_name name then F <$> taps !! name else taps !! name.
Proof.
  intros H. rewrite (reaches_other _ _ H), lookup_alter.
  destruct (decide (tap_name = name)) as [->|Hne].
  - by rewrite bool_decide_eq_true_2.
  - by rewrite (bool_decide_eq_false_2 _ Hne).
Qed.

(** A call either raises and leaves the registry as it was, or returns
    the registry it leaves, in which every name holds [record_after]. *)
Lemma run_lookup (c : call) (taps taps' : registry) (r : exn + registry) :
  run c taps = (r, taps') →
  (∃ e, r = inl e ∧ taps' = taps)
  ∨ (r = inr taps' ∧ ∀ name, taps' !! name = record_after c name (taps !! name)).
Proof.
  destruct c as [v n kw|n kw|n kw|n items|n|n args|n args|n tks]; cbn [run record_after].
  - rewrite add_variant_run. intros [= <- <-]. right. split; [done|].
    intros name. by rewrite lookup_insert.
  - rewrite add_configs_run. destruct (taps !! n) as [t|] eqn:Ht; intros [= <- <-];
      [right|left; by eexists]. split; [done|]. intros name.
    rewrite lookup_insert. case_decide; subst; by rewrite ?Ht.
  - rewrite add_filters_run. destruct (taps !! n) as [t|] eqn:Ht; intros [= <- <-];
      [right|left; by eexists]. split; [done|]. intros name.
    rewrite lookup_insert. case_decide; subst; by rewrite ?Ht.
  - rewrite add_tag_run. repeat case_decide; intros [= <- <-];
      [right|right|left; by eexists]; (split; [done|]); intros name.
    + subst n. by rewrite reaches_all, lookup_fmap.
    + by apply lookup_alter_reaches.
  - rewrite remove_tap_run. case_decide; intros [= <- <-];
      [right|left; by eexists]. split; [done|]. intros name.
    by rewrite lookup_delete.
  - rewrite remove_configs_run.
    destruct (taps !! n) as [t|] eqn:Ht; [destruct (config t) as [d|] eqn:Hd|];
      intros [= <- <-]; [right|left; by eexists|left; by eexists].
    split; [done|]. intros name.
    rewrite lookup_insert. case_decide; subst; rewrite ?Ht; cbn; by rewrite ?Hd.
  - rewrite remove_filter_run.
    destruct (taps !! n) as [t|] eqn:Ht; [destruct (filter t) as [d|] eqn:Hd|];
      intros [= <- <-]; [right|left; by eexists|left; by eexists].
    split; [done|]. intros name.
    rewrite lookup_insert. case_decide; subst; rewrite ?Ht; cbn; by rewrite ?Hd.
  - rewrite remove_tag_run. repeat case_decide; intros [= <- <-];
      [right|right|left; by eexists]; (split; [done|]); intros name.
    + subst n. by rewrite reaches_all, lookup_fmap.
    + by apply lookup_alter_reaches.
Qed.

(** ** Records under the tag loops *)



Lemma add_tag_record_tags t item : is_Some (tags (add_tag_record t item)).
Proof. unfold add_tag_record. destruct (tags t); by eexists. Qed.

Lemma foldl_add_tag_record_tags (items : list (string * value)) :
  ∀ t, is_Some (tags t) → is_Some (tags (foldl add_tag_record t items)).
Proof.
  induction items as [|item items IH]; intros t Ht; [done|].
  cbn [foldl]. apply IH, add_tag_record_tags.
Qed.

Lemma foldl_remove_tag_record_untagged (tags_keys : list string) t :
  tags t = None → foldl remove_tag_record t tags_keys = t.
Proof.
  intros Ht. induction tags_keys as [|key l IH]; [done|].
  cbn [foldl]. unfold remove_tag_record at 2. by rewrite Ht.
Qed.



(** ** Entries of the configuration and filter maps *)



(** ** Tags *)

Lemma tap_pop_tags key t : key ≠ "tags" → tags (tap_pop key t) = tags t.
Proof. intros Hne. unfold tap_pop. by repeat case_decide. Qed.

Lemma foldl_remove_tag_record_tags (tags_keys : list string) :
  "tags" ∉ tags_keys → ∀ t, tags (foldl remove_tag_record t tags_keys) = tags t.
Proof.
  induction tags_keys as [|key l IH]; intros Hnotin t; [done|].
  apply not_elem_of_cons in Hnotin as [Hne Hnotin].
  cbn [foldl]. rewrite IH by done. unfold remove_tag_record.
  destruct (tags t) eqn:Ht; [|done]. rewrite tap_pop_tags; [done|congruence].
Qed.

Lemma add_tag_lookup name (tag_items : dict) (taps : registry) :
  is_Some (taps !! name) →
  ∃ taps',
    add_tag name tag_items taps = (inr taps', taps')
    ∧ taps' !! name
      = (λ t, foldl add_tag_record t (map_to_list tag_items)) <$> taps !! name.
Proof.
  intros Hreg. rewrite add_tag_run. case_decide; [|rewrite decide_True by done];
    (eexists; split; [done|]); cbn zeta.
  - apply lookup_fmap.
  - apply lookup_alter_eq.
Qed.

Lemma remove_tag_lookup name (tags_keys : list string) (taps : registry) :
  is_Some (taps !! name) →
  ∃ taps',
    remove_tag name tags_keys taps = (inr taps', taps')
    ∧ taps' !! name = (λ t, foldl remove_tag_record t tags_keys) <$> taps !! name.
Proof.
  intros Hreg. rewrite remove_tag_run. case_decide; [|rewrite decide_True by done];
    (eexists; split; [done|]); cbn zeta.
  - apply lookup_fmap.
  - apply lookup_alter_eq.
Qed.

(** * The claims *)

(** C1, on the code: after [add_tag(name, {k: v})] on a registered tap,
    [remove_tag(name, [k])] returns and the tap still has the tag: the
    [pop] of [remove_tag] is on the record of the tap, where the key [k] is
    not, and the [tags] map keeps the entry [k: v] that [add_tag] wrote. *)
Theorem C1_remove_tag_leaves_the_tag name k v (taps : registry) t :
  taps !! name = Some t →
  k ≠ "tags" →
  ∃ taps1 taps2 t2,
    add_tag name {[ k := v ]} taps = (inr taps1, taps1)
    ∧ remove_tag name [k] taps1 = (inr taps2, taps2)
    ∧ taps2 !! name = Some t2
    ∧ tags t2 = Some (<[k := v]> (default ∅ (tags t)))
    ∧ tag_of k t2 = Some v.
Proof.
  intros Ht Hk.
  destruct (add_tag_lookup name {[ k := v ]} taps) as (taps1 & Hadd & Ht1);
    [by eexists|].
  rewrite Ht, map_to_list_singleton in Ht1. cbn in Ht1.
  destruct (remove_tag_lookup name [k] taps1) as (taps2 & Hremove & Ht2);
    [by eexists|].
  rewrite Ht1 in Ht2. cbn in Ht2.
  exists taps1, taps2. eexists. split; [done|]. split; [done|]. split; [done|].
  assert (Htags : tags (add_tag_record t (k, v))
                  = Some (<[k := v]> (default ∅ (tags t)))).
  { unfold add_tag_record. by destruct (tags t). }
  unfold remove_tag_record, tag_of. rewrite Htags, tap_pop_tags, Htags by done.
  split; [done|]. apply lookup_insert_eq.
Qed.

(** The tap ["t1"] has the tags [{"team": "net"}]; after
    [add_tag("t1", {"env": "prod"})] and [remove_tag("t1", ["env"])] it has
    the tags [{"team": "net", "env": "prod"}]. *)
Lemma C1_t1_keeps_env :
  ∃ taps1 taps2 t2,
    add_tag "t1" {[ "env" := VStr "prod" ]} t1_tagged = (inr taps1, taps1)
    ∧ remove_tag "t1" ["env"] taps1 = (inr taps2, taps2)
    ∧ taps2 !! "t1" = Some t2
    ∧ tags t2 = Some (<["env" := VStr "prod"]> {[ "team" := VStr "net" ]})
    ∧ tag_of "env" t2 = Some (VStr "prod").
Proof.
  refine (C1_remove_tag_leaves_the_tag "t1" "env" (VStr "prod") t1_tagged
            (set_tags (Some {[ "team" := VStr "net" ]}) t1_entry) _ _).
  - by vm_compute.
  - by vm_compute.
Defined.





(** C4: [add_tag("all", {k: v})] returns on every registry; it keeps the
    registered names, every tap registered at the call then has the tag
    [k] with the value [v], and a tap that an add-variant call creates
    afterwards has no tags at all. *)
Theorem C4_add_tag_all k v (taps : registry) :
  ∃ taps',
    add_tag "all" {[ k := v ]} taps = (inr taps', taps')
    ∧ (∀ name, is_Some (taps' !! name) ↔ is_Some (taps !! name))
    ∧ (∀ name, is_Some (taps !! name) →
         ∃ t', taps' !! name = Some t' ∧ tag_of k t' = Some v)
    ∧ (∀ variant name (kwargs : dict),
         ∃ taps'' t,
           add_variant variant name kwargs taps' = (inr taps'', taps'')
           ∧ taps'' !! name = Some t
           ∧ tags t = None
           ∧ tag_of k t = None).
Proof.
  rewrite add_tag_run, decide_True by done. eexists. split; [done|].
  cbn zeta. rewrite map_to_list_singleton. cbn [foldl]. split; [|split].
  - intros name. rewrite lookup_fmap. apply fmap_is_Some.
  - intros name [t Ht]. rewrite lookup_fmap, Ht. eexists. split; [done|].
    unfold add_tag_record, tag_of. destruct (tags t); cbn; apply lookup_insert_eq.
  - intros variant name kwargs. rewrite add_variant_run. do 2 eexists.
    split; [done|]. by rewrite lookup_insert_eq.
Qed.

(** C5: two calls of the same add-variant method with the same name: the
    second replaces the record of the first instead of merging into it.
    The record under the name, and the whole registry, are the ones that
    the second call alone gives, and the name is registered once.  The
    record is the same whatever the registry of the second call is, so
    also when other calls come between the two. *)
Theorem C5_second_add_replaces v name (kwargs1 kwargs2 : dict) (taps : registry) :
  ∃ taps1 taps2 alone,
    add_variant v name kwargs1 taps = (inr taps1, taps1)
    ∧ add_variant v name kwargs2 taps1 = (inr taps2, taps2)
    ∧ add_variant v name kwargs2 taps = (inr alone, alone)
    ∧ taps2 !! name = alone !! name
    ∧ taps2 !! name
      = Some (built_tap (input_type_label v)
                ((λ key, (key, kwargs_get kwargs2 key)) <$> config_keys v)
                ((λ key, (key, kwargs_get kwargs2 key)) <$> filter_keys v))
    ∧ taps2 = alone
    ∧ name ∈ keys taps2
    ∧ NoDup (keys taps2)
    ∧ (∀ between : registry,
         ∃ taps2',
           add_variant v name kwargs2 between = (inr taps2', taps2')
           ∧ taps2' !! name = alone !! name).
Proof.
  rewrite !add_variant_run. do 3 eexists.
  split; [done|]. rewrite add_variant_run. split; [done|]. split; [done|].
  cbn zeta. rewrite insert_insert_eq, lookup_insert_eq.
  repeat split; [|apply NoDup_keys|].
  - apply elem_of_keys. rewrite lookup_insert_eq. by eexists.
  - intros between. rewrite add_variant_run. eexists. split; [done|].
    cbn zeta. by rewrite lookup_insert_eq.
Qed.

(** C6: [remove_tap] on a name that is not registered fails its assertion;
    on a registered name it deletes the entry, after which the name is not
    registered: a second [remove_tap] fails its assertion and a subscript
    [self.taps[name]] raises [KeyError]. *)
Theorem C6_remove_tap name (taps : registry) :
  (taps !! name = None → remove_tap name taps = (inl AssertionError, taps))
  ∧ (is_Some (taps !! name) →
     ∃ taps',
       remove_tap name taps = (inr taps', taps')
       ∧ taps' = delete name taps
       ∧ taps' !! name = None
       ∧ (name ∉ keys taps')
       ∧ (∀ other, other ≠ name → taps' !! other = taps !! other)
       ∧ remove_tap name taps' = (inl AssertionError, taps')
       ∧ taps_getitem name taps' = (inl KeyError, taps')).
Proof.
  split.
  - intros Hnone. rewrite remove_tap_run, decide_False; [done|].
    rewrite Hnone. by intros [? ?].
  - intros Hreg. rewrite remove_tap_run, decide_True by done.
    eexists. split; [done|]. split; [done|].
    assert (Hgone : delete name taps !! name = None) by apply lookup_delete_eq.
    split; [done|]. split; [|split; [|split]].
    + rewrite elem_of_keys, Hgone. by intros [? ?].
    + intros other Hne. by apply lookup_delete_ne.
    + rewrite remove_tap_run, decide_False; [done|]. rewrite Hgone. by intros [? ?].
    + by apply taps_getitem_None.
Qed.

(** On the registry that holds ["t1"] alone, [remove_tap("t1")] returns the
    empty registry and a second [remove_tap("t1")] fails its assertion. *)
Lemma C6_remove_t1 :
  remove_tap "t1" ∅ = (inl AssertionError, ∅)
  ∧ ∃ taps',
      remove_tap "t1" t1_registry = (inr taps', taps')
      ∧ taps' = delete "t1" t1_registry
      ∧ taps' !! "t1" = None
      ∧ ("t1" ∉ keys taps')
      ∧ (∀ other, other ≠ "t1" → taps' !! other = t1_registry !! other)
      ∧ remove_tap "t1" taps' = (inl AssertionError, taps')
      ∧ taps_getitem "t1" taps' = (inl KeyError, taps').
Proof.
  split.
  - apply (proj1 (C6_remove_tap "t1" ∅)). by vm_compute.
  - apply (proj2 (C6_remove_tap "t1" t1_registry)). exists t1_entry. by vm_compute.
Defined.

(** C7: [add_configs] on a name that is not registered raises [KeyError],
    a [LookupError]; on a registered name it leaves the tap with a [config]
    map in which every supplied key has the supplied value, whether the
    key was there or not, and every other key is as it was.  The rest of
    the record and the other taps are as they were. *)
Theorem C7_add_configs name (kwargs : dict) (taps : registry) :
  (taps !! name = None → add_configs name kwargs taps = (inl KeyError, taps))
  ∧ (∀ t, taps !! name = Some t →
     ∃ taps' t' config_object,
       add_configs name kwargs taps = (inr taps', taps')
       ∧ taps' !! name = Some t'
       ∧ config t' = Some config_object
       ∧ (∀ key v, kwargs !! key = Some v → config_object !! key = Some v)
       ∧ (∀ key, kwargs !! key = None →
                 config_object !! key = entry Config name key taps)
       ∧ input_type t' = input_type t
       ∧ filter t' = filter t
       ∧ tags t' = tags t
       ∧ (∀ other, other ≠ name → taps' !! other = taps !! other)).
Proof.
  split.
  - intros Hnone. by rewrite add_configs_run, Hnone.
  - intros t Ht. rewrite add_configs_run, Ht. do 3 eexists.
    split; [done|]. rewrite lookup_insert_eq. split; [done|]. split; [done|].
    unfold UtilsManager.add_configs. split; [|split; [|repeat split]].
    + intros key v Hkey. by apply lookup_union_Some_l.
    + intros key Hkey. rewrite lookup_union_r by done.
      unfold entry. rewrite Ht. cbn. by destruct (config t).
    + intros other Hne. by apply lookup_insert_ne.
Qed.

(** [add_flow("t2", port=2055)] then [add_configs("t2", bind="0.0.0.0")]:
    the [config] map of ["t2"] has [bind] with the new value and [port]
    with the value it had. *)
Lemma C7_add_configs_t2 :
  ∃ taps' t' config_object,
    add_configs "t2" {[ "bind" := VStr "0.0.0.0" ]}
      (add_flow "t2" {[ "port" := VInt 2055 ]} ∅).2 = (inr taps', taps')
    ∧ taps' !! "t2" = Some t'
    ∧ config t' = Some config_object
    ∧ config_object !! "bind" = Some (VStr "0.0.0.0")
    ∧ config_object !! "port" = Some (VInt 2055).
Proof.
  destruct (proj2 (C7_add_configs "t2" {[ "bind" := VStr "0.0.0.0" ]}
                     (add_flow "t2" {[ "port" := VInt 2055 ]} ∅).2)
              (built_tap "flow"
                 [("pcap_file", VNone); ("port", VInt 2055);
                  ("bind", VNone); ("flow_type", VNone)] []))
    as (taps' & t' & d & Hrun & Ht' & Hd & Hnew & Hold & _); [by vm_compute|].
  exists taps', t', d. split; [done|]. split; [done|]. split; [done|]. split.
  - apply Hnew. by vm_compute.
  - rewrite Hold by by vm_compute. by vm_compute.
Defined.

(** A call that raises leaves the registry as it was. *)
Lemma run_raise_unchanged (c : call) (taps taps' : registry) e :
  run c taps = (inl e, taps') → taps' = taps.
Proof. by intros [(? & _ & ->)|[[=] _]]%run_lookup. Qed.

(** C8: a call of [add_configs], [add_filters], [add_tag], [remove_tap],
    [remove_configs], [remove_filter] or [remove_tag] on a tap name that is
    not registered, and that is not ["all"] for the two tag methods,
    raises, and the registry it leaves is the registry it was given. *)
Theorem C8_failure_is_atomic (c : call) name (taps : registry) :
  referenced_tap c = Some name →
  taps !! name = None →
  run c taps = (inl (not_found c), taps).
Proof.
  intros Href Hnone.
  assert (Hnot : ¬ is_Some (taps !! name)) by (rewrite Hnone; by intros [? ?]).
  destruct c as [v n kw|n kw|n kw|n items|n|n args|n args|n tks];
    cbn [referenced_tap run not_found] in *;
    try case_decide; simplify_eq.
  - by rewrite add_configs_run, Hnone.
  - by rewrite add_filters_run, Hnone.
  - by rewrite add_tag_run, !decide_False.
  - by rewrite remove_tap_run, decide_False.
  - by rewrite remove_configs_run, Hnone.
  - by rewrite remove_filter_run, Hnone.
  - by rewrite remove_tag_run, !decide_False.
Qed.

(** [remove_tag("t9", ["team"])] on the registry that holds ["t1"] alone. *)
Lemma C8_remove_tag_t9 :
  run (RemoveTag "t9" ["team"]) t1_tagged = (inl AssertionError, t1_tagged).
Proof. apply (C8_failure_is_atomic (RemoveTag "t9" ["team"]) "t9"); by vm_compute. Defined.

(** C9, as stated, fails: ["t1"] is registered with a [tags] map, and the
    call [add_pcap("t1", iface="eth0", bpf="tcp port 80")] leaves ["t1"]
    registered with a record that has no [tags] key. *)
Lemma C9_add_again_drops_tags :
  ∃ t taps' t',
    t1_tagged !! "t1" = Some t
    ∧ tags t = Some {[ "team" := VStr "net" ]}
    ∧ run (Add Pcap "t1" t1_kwargs) t1_tagged = (inr taps', taps')
    ∧ taps' !! "t1" = Some t'
    ∧ tags t' = None.
Proof. do 3 eexists. repeat split; by vm_compute. Qed.

(** C9, amended: the record that an add-variant call creates has no [tags]
    key.  For a tap that is registered before and after a call, whether the
    call returns or raises: when the record has no [tags] key it has none
    afterwards, unless the call is an [add_tag] that reaches the tap; when
    it has a [tags] map it has one afterwards under [add_configs],
    [add_filters], [add_tag], [remove_configs], [remove_filter], under a
    [remove_tag] that does not name ["tags"], and under the calls on other
    taps.  An add-variant call on the name of the tap replaces the record,
    which then has no [tags] key. *)
Theorem C9_tags_key :
  (∀ v name (kwargs : dict) (taps : registry),
     ∃ taps' t,
       add_variant v name kwargs taps = (inr taps', taps')
       ∧ taps' !! name = Some t
       ∧ tags t = None)
  ∧ (∀ (c : call) name (taps taps' : registry) r t t',
       run c taps = (r, taps') →
       taps !! name = Some t →
       taps' !! name = Some t' →
       (tags t = None → adds_tags_to name c = false → tags t' = None)
       ∧ (is_Some (tags t) → may_drop_tags name c = false → is_Some (tags t'))).
Proof.
  split.
  - intros v name kwargs taps. rewrite add_variant_run. do 2 eexists.
    split; [done|]. by rewrite lookup_insert_eq.
  - intros c name taps taps' r t t' [(e & -> & ->)|[-> Hafter]]%run_lookup Ht Ht'.
    { rewrite Ht in Ht'. by simplify_eq. }
    rewrite Hafter, Ht in Ht'. clear Hafter.
    destruct c as [v n kw|n kw|n kw|n items|n|n args|n args|n tks];
      cbn [record_after adds_tags_to may_drop_tags] in *.
    + case_decide; simplify_eq; [|done]. split; [done|].
      by rewrite bool_decide_eq_true_2.
    + case_decide; cbn in Ht'; by simplify_eq.
    + case_decide; cbn in Ht'; by simplify_eq.
    + destruct (reaches n name); cbn in Ht'; simplify_eq; [|done]. split; [done|].
      intros Htags _. by apply foldl_add_tag_record_tags.
    + case_decide; cbn in Ht'; by simplify_eq.
    + case_decide; cbn in Ht'; by simplify_eq.
    + case_decide; cbn in Ht'; by simplify_eq.
    + destruct (reaches n name); cbn in Ht'; simplify_eq; [|done]. cbn. split.
      * intros Htags _. by rewrite foldl_remove_tag_record_untagged.
      * intros Htags Hnotin%bool_decide_eq_false.
        by rewrite foldl_remove_tag_record_tags.
Qed.

(** The tagged tap ["t1"] keeps its [tags] map under
    [add_configs("t1", debug=None)]. *)
Lemma C9_t1_keeps_tags :
  ∃ taps' t',
    run (AddConfigs "t1" {[ "debug" := VNone ]}) t1_tagged = (inr taps', taps')
    ∧ taps' !! "t1" = Some t'
    ∧ is_Some (tags t').
Proof.
  do 2 eexists. split; [by vm_compute|]. split; [by vm_compute|].
  refine (proj2 (proj2 C9_tags_key (AddConfigs "t1" {[ "debug" := VNone ]}) "t1"
    t1_tagged _ _ (set_tags (Some {[ "team" := VStr "net" ]}) t1_entry) _ _ _ _) _ _).
  - by vm_compute.
  - by vm_compute.
  - by vm_compute.
  - by eexists.
  - by vm_compute.
Defined.

(** C10: in [add_tag] and [remove_tag] the name ["all"] stands for every
    registered name, whether a tap named ["all"] is registered or not: the
    names that the call goes through are the registered names, and the
    loops rewrite the record of every registered tap.  When a tap other
    than ["all"] is registered, no tap name makes these methods go through
    the tap ["all"] alone. *)
Theorem C10_all_is_the_sentinel (taps : registry) :
  tap_names taps "all" = keys taps
  ∧ (∀ name, name ∈ tap_names taps "all" ↔ is_Some (taps !! name))
  ∧ (∀ tag_items : dict,
       ∃ taps',
         add_tag "all" tag_items taps = (inr taps', taps')
         ∧ ∀ name, taps' !! name
                   = (λ t, foldl add_tag_record t (map_to_list tag_items))
                       <$> taps !! name)
  ∧ (∀ tags_keys : list string,
       ∃ taps',
         remove_tag "all" tags_keys taps = (inr taps', taps')
         ∧ ∀ name, taps' !! name
                   = (λ t, foldl remove_tag_record t tags_keys) <$> taps !! name)
  ∧ (∀ tap_name other,
       is_Some (taps !! other) → other ≠ "all" →
       tap_names taps tap_name ≠ ["all"]).
Proof.
  split; [done|]. split; [intros name; apply elem_of_keys|]. split; [|split].
  - intros tag_items. rewrite add_tag_run, decide_True by done.
    eexists. split; [done|]. intros name. apply lookup_fmap.
  - intros tags_keys. rewrite remove_tag_run, decide_True by done.
    eexists. split; [done|]. intros name. apply lookup_fmap.
  - intros tap_name other Hreg Hother. unfold tap_names.
    case_decide as Hall; [|congruence].
    intros Hkeys. apply elem_of_keys in Hreg. rewrite Hkeys in Hreg.
    by apply list_elem_of_singleton in Hreg.
Qed.

(** With a tap named ["all"] registered next to ["t1"], [add_tag("all",
    {"env": "prod"})] tags ["t1"] as well, and no tap name makes the tag
    methods go through the tap ["all"] alone. *)
Lemma C10_all_and_t1 :
  (∃ taps' t',
     add_tag "all" {[ "env" := VStr "prod" ]} all_and_t1 = (inr taps', taps')
     ∧ taps' !! "t1" = Some t'
     ∧ tag_of "env" t' = Some (VStr "prod"))
  ∧ tap_names all_and_t1 "all" ≠ ["all"]
  ∧ tap_names all_and_t1 "t1" ≠ ["all"].
Proof.
  destruct (C10_all_is_the_sentinel all_and_t1) as (_ & _ & Hadd & _ & Halone).
  destruct (Hadd {[ "env" := VStr "prod" ]}) as (taps' & Hrun & Hlookup).
  assert (Ht1 : is_Some (all_and_t1 !! "t1")) by (eexists; by vm_compute).
  split; [|split; by apply (Halone _ "t1")].
  exists taps'. eexists. split; [done|]. split.
  - rewrite Hlookup. by vm_compute.
  - by vm_compute.
Defined.

(** * Further properties of the class *)

(** ** Tag calls that reach a tap *)

Lemma add_tag_reached tap_name name (tag_items : dict) (taps : registry) :
  reaches tap_name name = true →
  is_Some (taps !! name) →
  ∃ taps',
    add_tag tap_name tag_items taps = (inr taps', taps')
    ∧ ∀ n, taps' !! n = record_after (AddTag tap_name tag_items) n (taps !! n).
Proof.
  intros Hreach Hreg. rewrite add_tag_run. case_decide as Hall.
  - eexists. split; [done|]. intros n. subst tap_name. cbn [record_after].
    by rewrite reaches_all, lookup_fmap.
  - rewrite reaches_other in Hreach by done.
    apply bool_decide_eq_true in Hreach as ->. rewrite decide_True by done.
    eexists. split; [done|]. intros n. by apply lookup_alter_reaches.
Qed.

Lemma remove_tag_reached tap_name name (tags_keys : list string) (taps : registry) :
  reaches tap_name name = true →
  is_Some (taps !! name) →
  ∃ taps',
    remove_tag tap_name tags_keys taps = (inr taps', taps')
    ∧ ∀ n, taps' !! n = record_after (RemoveTag tap_name tags_keys) n (taps !! n).
Proof.
  intros Hreach Hreg. rewrite remove_tag_run. case_decide as Hall.
  - eexists. split; [done|]. intros n. subst tap_name. cbn [record_after].
    by rewrite reaches_all, lookup_fmap.
  - rewrite reaches_other in Hreach by done.
    apply bool_decide_eq_true in Hreach as ->. rewrite decide_True by done.
    eexists. split; [done|]. intros n. by apply lookup_alter_reaches.
Qed.

(** ** The tags that [add_tag] leaves *)

Lemma foldl_insert_lookup_notin (l : list (string * value)) key :
  key ∉ l.*1 →
  ∀ d : dict, foldl (λ d item, <[item.1 := item.2]> d) d l !! key = d !! key.
Proof.
  induction l as [|[k v] l IH]; intros Hnotin d; [done|].
  cbn in Hnotin. apply not_elem_of_cons in Hnotin as [Hne Hnotin].
  cbn [foldl]. rewrite IH by done. by apply lookup_insert_ne.
Qed.

Lemma foldl_insert_lookup_in (l : list (string * value)) key v :
  NoDup l.*1 → (key, v) ∈ l →
  ∀ d : dict, foldl (λ d item, <[item.1 := item.2]> d) d l !! key = Some v.
Proof.
  induction l as [|[k' v'] l IH]; intros Hnodup Hin d; [by inversion Hin|].
  cbn in Hnodup. apply NoDup_cons in Hnodup as [Hfresh Hnodup].
  cbn [foldl]. apply elem_of_cons in Hin as [[= <- <-]|Hin].
  - rewrite foldl_insert_lookup_notin by done. apply lookup_insert_eq.
  - by apply IH.
Qed.

Lemma foldl_insert_map_to_list (m d : dict) :
  foldl (λ d item, <[item.1 := item.2]> d) d (map_to_list m) = m ∪ d.
Proof.
  apply map_eq. intros key. destruct (m !! key) as [v|] eqn:Hkey.
  - rewrite (lookup_union_Some_l _ _ _ _ Hkey).
    apply foldl_insert_lookup_in; [apply NoDup_fst_map_to_list|].
    by apply elem_of_map_to_list.
  - rewrite lookup_union_r by done. apply foldl_insert_lookup_notin.
    intros [[k v] [-> Hin]]%list_elem_of_fmap.
    apply elem_of_map_to_list in Hin. cbn in *. congruence.
Qed.

Lemma foldl_add_tag_record_cons item (l : list (string * value)) t :
  foldl add_tag_record t (item :: l)
  = set_tags
      (Some (foldl (λ d item, <[item.1 := item.2]> d) (default ∅ (tags t))
               (item :: l))) t.
Proof.
  revert item t. induction l as [|item' l IH]; intros item t.
  - cbn. unfold add_tag_record. by destruct (tags t).
  - change (foldl add_tag_record t (item :: item' :: l))
      with (foldl add_tag_record (add_tag_record t item) (item' :: l)).
    rewrite IH. unfold add_tag_record. by destruct t as [ty cfg flt [d|]].
Qed.

(** The loop of [add_tag] over the items of a dictionary: nothing for the
    empty dictionary, and otherwise a [tags] map in which the items are
    laid over the tags that were there. *)
Lemma add_tags_record (tag_items : dict) t :
  foldl add_tag_record t (map_to_list tag_items)
  = if decide (tag_items = ∅) then t
    else set_tags (Some (tag_items ∪ default ∅ (tags t))) t.
Proof.
  case_decide as Hempty.
  - subst. by rewrite map_to_list_empty.
  - destruct (map_to_list tag_items) as [|item l] eqn:Hlist.
    { by apply map_to_list_empty_iff in Hlist. }
    by rewrite foldl_add_tag_record_cons, <- Hlist, foldl_insert_map_to_list.
Qed.

Lemma add_tags_record_twice (a b : dict) t :
  foldl add_tag_record (foldl add_tag_record t (map_to_list a)) (map_to_list b)
  = foldl add_tag_record t (map_to_list (b ∪ a)).
Proof.
  rewrite !add_tags_record.
  destruct (decide (a = ∅)) as [->|Ha], (decide (b = ∅)) as [->|Hb].
  - by rewrite (left_id_L ∅ (∪)), decide_True.
  - by rewrite (right_id_L ∅ (∪)), decide_False.
  - by rewrite (left_id_L ∅ (∪)), decide_False.
  - rewrite decide_False by (by intros ?%map_positive_l).
    cbn. by rewrite (assoc_L (∪)).
Qed.

(** X1: an [add_tag] with at least one item that reaches a registered tap
    returns and leaves the tap with a [tags] map in which the items are
    laid over the tags that were there: every item has its new value,
    every other tag is as it was, and [input_type], [config] and [filter]
    are as they were. *)
Theorem X1_add_tag_lays_items_over_tags
    tap_name name (tag_items : dict) (taps : registry) t :
  reaches tap_name name = true →
  taps !! name = Some t →
  tag_items ≠ ∅ →
  ∃ taps' t',
    add_tag tap_name tag_items taps = (inr taps', taps')
    ∧ taps' !! name = Some t'
    ∧ tags t' = Some (tag_items ∪ default ∅ (tags t))
    ∧ (∀ key v, tag_items !! key = Some v → tag_of key t' = Some v)
    ∧ (∀ key, tag_items !! key = None → tag_of key t' = tag_of key t)
    ∧ input_type t' = input_type t
    ∧ config t' = config t
    ∧ filter t' = filter t.
Proof.
  intros Hreach Ht Hitems.
  destruct (add_tag_reached tap_name name tag_items taps) as (taps' & Hrun & Hafter);
    [done|by eexists|].
  specialize (Hafter name). cbn [record_after] in Hafter.
  rewrite Hreach, Ht in Hafter. cbn in Hafter.
  rewrite add_tags_record, decide_False in Hafter by done.
  exists taps'. eexists. split; [done|]. split; [done|]. cbn.
  split; [done|]. split; [|split; [|done]].
  - intros key v Hkey. by apply lookup_union_Some_l.
  - intros key Hkey. rewrite lookup_union_r by done.
    unfold tag_of. by destruct (tags t).
Qed.

(** [add_tag("all", {"env": "prod"})] on the tagged ["t1"]: the tags of
    ["t1"] are [{"env": "prod", "team": "net"}]. *)
Lemma X1_t1_env_over_team :
  ∃ taps' t',
    add_tag "all" {[ "env" := VStr "prod" ]} t1_tagged = (inr taps', taps')
    ∧ taps' !! "t1" = Some t'
    ∧ tags t' = Some ({[ "env" := VStr "prod" ]} ∪ {[ "team" := VStr "net" ]})
    ∧ tag_of "env" t' = Some (VStr "prod")
    ∧ tag_of "team" t' = Some (VStr "net").
Proof.
  destruct (X1_add_tag_lays_items_over_tags "all" "t1" {[ "env" := VStr "prod" ]}
              t1_tagged (set_tags (Some {[ "team" := VStr "net" ]}) t1_entry))
    as (taps' & t' & Hrun & Ht' & Htags & Hnew & Hold & _).
  - by vm_compute.
  - by vm_compute.
  - intros Hempty. by apply (f_equal (lookup "env")) in Hempty.
  - exists taps', t'. split; [done|]. split; [done|]. split; [done|]. split.
    + apply Hnew. by vm_compute.
    + rewrite Hold by by vm_compute. by vm_compute.
Defined.

(** X2: two calls of [add_tag] with the same tap name, one after the
    other, leave what one call with the items of the second laid over the
    items of the first leaves; with the same items twice, what one call
    leaves. *)
Theorem X2_add_tag_twice tap_name (a b : dict) (taps taps1 : registry) :
  add_tag tap_name a taps = (inr taps1, taps1) →
  add_tag tap_name b taps1 = add_tag tap_name (b ∪ a) taps
  ∧ add_tag tap_name a taps1 = (inr taps1, taps1).
Proof.
  assert (Htwice : ∀ b : dict,
    add_tag tap_name a taps = (inr taps1, taps1) →
    add_tag tap_name b taps1 = add_tag tap_name (b ∪ a) taps).
  { clear b. intros b. rewrite !add_tag_run.
    destruct (decide (tap_name = "all")) as [Hall|Hall];
      [|destruct (decide (is_Some (taps !! tap_name))) as [Hreg|Hreg]];
      intros [= <-].
    - cbn zeta. rewrite <- map_fmap_compose.
      assert (Heq : (λ t, foldl add_tag_record t (map_to_list b))
                      ∘ (λ t, foldl add_tag_record t (map_to_list a))
                    <$> taps
                    = (λ t, foldl add_tag_record t (map_to_list (b ∪ a))) <$> taps).
      { apply map_fmap_ext. intros n t _. apply add_tags_record_twice. }
      by rewrite Heq.
    - rewrite decide_True by by apply lookup_alter_is_Some.
      cbn zeta. rewrite alter_alter_eq.
      assert (Heq : alter ((λ t, foldl add_tag_record t (map_to_list b))
                           ∘ (λ t, foldl add_tag_record t (map_to_list a)))
                      tap_name taps
                    = alter (λ t, foldl add_tag_record t (map_to_list (b ∪ a)))
                        tap_name taps).
      { apply alter_ext. intros t _. apply add_tags_record_twice. }
      by rewrite Heq. }
  intros Hrun. split; [by apply Htwice|].
  rewrite (Htwice a Hrun), (idemp_L (∪)). done.
Qed.

(** ["t1"] tagged with [team = net] and then with [env = prod], and
    ["t1"] tagged with [team = net] twice. *)
Lemma X2_t1_team_twice :
  add_tag "t1" {[ "env" := VStr "prod" ]} t1_tagged
  = add_tag "t1" ({[ "env" := VStr "prod" ]} ∪ {[ "team" := VStr "net" ]}) t1_registry
  ∧ add_tag "t1" {[ "team" := VStr "net" ]} t1_tagged = (inr t1_tagged, t1_tagged).
Proof.
  apply (X2_add_tag_twice "t1" {[ "team" := VStr "net" ]} {[ "env" := VStr "prod" ]}
           t1_registry t1_tagged).
  by vm_compute.
Defined.



(** ** The record that [remove_tag] leaves *)

Lemma tap_pop_fields key t :
  tap_pop key t
  = Tap (if decide (key = "input_type") then None else input_type t)
        (if decide (key = "config") then None else config t)
        (if decide (key = "filter") then None else filter t)
        (if decide (key = "tags") then None else tags t).
Proof.
  destruct t. unfold tap_pop. by repeat case_decide; subst.
Qed.

Lemma if_elem_of_cons {A : Type} (x key : string) (l : list string) (a b : A) :
  (if decide (x ∈ l) then a else if decide (key = x) then a else b)
  = if decide (x ∈ key :: l) then a else b.
Proof.
  destruct (decide (x ∈ l)) as [Hin|Hnotin].
  - by rewrite decide_True by by right.
  - destruct (decide (key = x)) as [->|Hne].
    + by rewrite decide_True by by left.
    + rewrite decide_False; [done|]. intros [?|?]%elem_of_cons; by subst.
Qed.

Lemma foldl_tap_pop (tags_keys : list string) :
  ∀ t,
    foldl (λ t key, tap_pop key t) t tags_keys
    = Tap (if decide ("input_type" ∈ tags_keys) then None else input_type t)
          (if decide ("config" ∈ tags_keys) then None else config t)
          (if decide ("filter" ∈ tags_keys) then None else filter t)
          (if decide ("tags" ∈ tags_keys) then None else tags t).
Proof.
  induction tags_keys as [|key l IH]; intros t.
  - destruct t. by rewrite !decide_False by apply not_elem_of_nil.
  - cbn [foldl]. rewrite IH, tap_pop_fields. cbn. by rewrite !if_elem_of_cons.
Qed.

Lemma foldl_remove_tag_record_pops (tags_keys : list string) :
  "tags" ∉ tags_keys →
  ∀ t, is_Some (tags t) →
    foldl remove_tag_record t tags_keys = foldl (λ t key, tap_pop key t) t tags_keys.
Proof.
  induction tags_keys as [|key l IH]; intros Hnotin t Htags; [done|].
  apply not_elem_of_cons in Hnotin as [Hne Hnotin]. cbn [foldl].
  assert (Hstep : remove_tag_record t key = tap_pop key t).
  { unfold remove_tag_record. by destruct Htags as [d ->]. }
  rewrite Hstep. apply IH; [done|]. rewrite tap_pop_tags; [done|congruence].
Qed.

Lemma foldl_remove_tag_record_drops_tags (tags_keys : list string) :
  "tags" ∈ tags_keys → ∀ t, tags (foldl remove_tag_record t tags_keys) = None.
Proof.
  induction tags_keys as [|key l IH]; intros Hin t; [by inversion Hin|].
  cbn [foldl]. destruct (tags t) as [d|] eqn:Htags.
  - unfold remove_tag_record at 2. rewrite Htags.
    apply elem_of_cons in Hin as [<-|Hin]; [|by apply IH].
    by rewrite foldl_remove_tag_record_untagged.
  - unfold remove_tag_record at 2. rewrite Htags.
    by rewrite foldl_remove_tag_record_untagged.
Qed.

Lemma foldl_remove_tag_record_twice (tags_keys : list string) t :
  foldl remove_tag_record (foldl remove_tag_record t tags_keys) tags_keys
  = foldl remove_tag_record t tags_keys.
Proof.
  destruct (tags t) as [d|] eqn:Htags;
    [|by rewrite !(foldl_remove_tag_record_untagged tags_keys t Htags)].
  destruct (decide ("tags" ∈ tags_keys)) as [Hin|Hnotin].
  - apply foldl_remove_tag_record_untagged.
    by apply foldl_remove_tag_record_drops_tags.
  - rewrite (foldl_remove_tag_record_pops _ Hnotin t) by by eexists.
    rewrite foldl_remove_tag_record_pops; [|done|].
    + rewrite !foldl_tap_pop. cbn. by repeat case_decide.
    + rewrite foldl_tap_pop. cbn. rewrite decide_False by done. by eexists.
Qed.

Lemma remove_tag_valid tap_name (tags_keys : list string) (taps : registry) :
  is_Some (taps !! tap_name) ∨ tap_name = "all" →
  ∃ taps',
    remove_tag tap_name tags_keys taps = (inr taps', taps')
    ∧ ∀ n, taps' !! n = record_after (RemoveTag tap_name tags_keys) n (taps !! n).
Proof.
  intros Hvalid. destruct (decide (tap_name = "all")) as [->|Hall].
  - rewrite remove_tag_run, decide_True by done. eexists. split; [done|].
    intros n. cbn [record_after]. by rewrite reaches_all, lookup_fmap.
  - destruct Hvalid as [Hreg|?]; [|done].
    apply (remove_tag_reached tap_name tap_name); [|done].
    rewrite reaches_other by done. by apply bool_decide_eq_true.
Qed.

(** X4: [remove_tag] on a registered name or on ["all"] returns, whatever
    the keys are, and a tap that has no [tags] map is as it was; when no
    tap has a [tags] map the registry is as it was. *)
Theorem X4_remove_tag_skips_untagged
    tap_name (tags_keys : list string) (taps : registry) :
  is_Some (taps !! tap_name) ∨ tap_name = "all" →
  ∃ taps',
    remove_tag tap_name tags_keys taps = (inr taps', taps')
    ∧ (∀ n t, taps !! n = Some t → tags t = None → taps' !! n = Some t)
    ∧ ((∀ n t, taps !! n = Some t → tags t = None) → taps' = taps).
Proof.
  intros Hvalid.
  destruct (remove_tag_valid tap_name tags_keys taps Hvalid)
    as (taps' & Hrun & Hafter).
  exists taps'. split; [done|].
  assert (Hkept : ∀ n t, taps !! n = Some t → tags t = None → taps' !! n = Some t).
  { intros n t Ht Htags. rewrite Hafter, Ht. cbn [record_after].
    destruct (reaches tap_name n); [|done].
    cbn. by rewrite foldl_remove_tag_record_untagged. }
  split; [done|]. intros Hnone. apply map_eq. intros n.
  destruct (taps !! n) as [t|] eqn:Ht; [by eauto|].
  rewrite Hafter, Ht. cbn [record_after]. by destruct (reaches tap_name n).
Qed.

(** [remove_tag("all", ["iface", "config"])] on the untagged ["t1"]. *)
Lemma X4_untagged_t1 :
  ∃ taps',
    remove_tag "all" ["iface"; "config"] t1_registry = (inr taps', taps')
    ∧ taps' !! "t1" = Some t1_entry
    ∧ taps' = t1_registry.
Proof.
  destruct (X4_remove_tag_skips_untagged "all" ["iface"; "config"] t1_registry)
    as (taps' & Hrun & Hkept & Hsame); [by right|].
  exists taps'. split; [done|]. split.
  - apply Hkept; by vm_compute.
  - apply Hsame. intros n t Hn.
    destruct (decide (n = "t1")) as [->|Hne].
    + vm_compute in Hn. by injection Hn as <-.
    + unfold t1_registry in Hn. by rewrite lookup_singleton_ne in Hn.
Defined.

(** X5: a [remove_tag] whose keys do not name ["tags"] and that reaches a
    tap with a [tags] map returns and removes no tag: the [tags] map is as
    it was, and each of [input_type], [config] and [filter] that is named
    among the keys is deleted from the record of the tap, the ones that
    are not named being as they were. *)
Theorem X5_remove_tag_pops_the_record
    tap_name name (tags_keys : list string) (taps : registry) t :
  reaches tap_name name = true →
  taps !! name = Some t →
  is_Some (tags t) →
  "tags" ∉ tags_keys →
  ∃ taps' t',
    remove_tag tap_name tags_keys taps = (inr taps', taps')
    ∧ taps' !! name = Some t'
    ∧ tags t' = tags t
    ∧ input_type t'
      = (if decide ("input_type" ∈ tags_keys) then None else input_type t)
    ∧ config t' = (if decide ("config" ∈ tags_keys) then None else config t)
    ∧ filter t' = (if decide ("filter" ∈ tags_keys) then None else filter t).
Proof.
  intros Hreach Ht Htags Hnotin.
  destruct (remove_tag_reached tap_name name tags_keys taps)
    as (taps' & Hrun & Hafter); [done|by eexists|].
  specialize (Hafter name). cbn [record_after] in Hafter.
  rewrite Hreach, Ht in Hafter. cbn in Hafter.
  rewrite foldl_remove_tag_record_pops, foldl_tap_pop in Hafter by done.
  exists taps'. eexists. split; [done|]. split; [done|]. cbn.
  by rewrite (decide_False (P := "tags" ∈ tags_keys)).
Qed.

(** [remove_tag("t1", ["team", "config"])] on the tagged ["t1"]: the tag
    [team] is still there and the [config] map is not. *)
Lemma X5_t1_loses_config :
  ∃ taps' t',
    remove_tag "t1" ["team"; "config"] t1_tagged = (inr taps', taps')
    ∧ taps' !! "t1" = Some t'
    ∧ tags t' = Some {[ "team" := VStr "net" ]}
    ∧ input_type t' = Some "pcap"
    ∧ config t' = None
    ∧ filter t' = Some {[ "bpf" := VStr "tcp port 80" ]}.
Proof.
  refine (X5_remove_tag_pops_the_record "t1" "t1" ["team"; "config"] t1_tagged
            (set_tags (Some {[ "team" := VStr "net" ]}) t1_entry) _ _ _ _).
  - by vm_compute.
  - by vm_compute.
  - by eexists.
  - rewrite !not_elem_of_cons. repeat split; [done..|apply not_elem_of_nil].
Defined.

(** X6: [remove_tag] goes through its keys in order and stops having an
    effect at the key ["tags"]: on a tap with a [tags] map, the keys before
    ["tags"] that name [input_type], [config] or [filter] delete that part
    of the record, the key ["tags"] deletes the whole [tags] map, and the
    keys after it do nothing. *)
Theorem X6_remove_tag_stops_at_tags
    tap_name name (before after : list string) (taps : registry) t :
  reaches tap_name name = true →
  taps !! name = Some t →
  is_Some (tags t) →
  "tags" ∉ before →
  ∃ taps' t',
    remove_tag tap_name (before ++ "tags" :: after) taps = (inr taps', taps')
    ∧ taps' !! name = Some t'
    ∧ tags t' = None
    ∧ input_type t'
      = (if decide ("input_type" ∈ before) then None else input_type t)
    ∧ config t' = (if decide ("config" ∈ before) then None else config t)
    ∧ filter t' = (if decide ("filter" ∈ before) then None else filter t).
Proof.
  intros Hreach Ht Htags Hnotin.
  destruct (remove_tag_reached tap_name name (before ++ "tags" :: after) taps)
    as (taps' & Hrun & Hafter); [done|by eexists|].
  specialize (Hafter name). cbn [record_after] in Hafter.
  rewrite Hreach, Ht in Hafter. cbn in Hafter.
  rewrite foldl_app in Hafter. cbn [foldl] in Hafter.
  rewrite (foldl_remove_tag_record_pops before Hnotin t Htags) in Hafter.
  rewrite foldl_tap_pop in Hafter.
  unfold remove_tag_record at 2 in Hafter. cbn in Hafter.
  rewrite (decide_False (P := "tags" ∈ before)) in Hafter by done.
  destruct Htags as [d Hd]. rewrite Hd in Hafter.
  rewrite foldl_remove_tag_record_untagged in Hafter by done.
  exists taps'. eexists. split; [done|]. split; [done|]. done.
Qed.

(** On the tagged ["t1"], [remove_tag("t1", ["tags", "config"])] keeps the
    [config] map. *)
Lemma X6_t1_tags_then_config :
  ∃ taps' t',
    remove_tag "t1" ([] ++ "tags" :: ["config"]) t1_tagged = (inr taps', taps')
    ∧ taps' !! "t1" = Some t'
    ∧ tags t' = None
    ∧ input_type t' = Some "pcap"
    ∧ config t' = Some {[ "iface" := VStr "eth0" ]}
    ∧ filter t' = Some {[ "bpf" := VStr "tcp port 80" ]}.
Proof.
  refine (X6_remove_tag_stops_at_tags "t1" "t1" [] ["config"] t1_tagged
            (set_tags (Some {[ "team" := VStr "net" ]}) t1_entry) _ _ _ _).
  - by vm_compute.
  - by vm_compute.
  - by eexists.
  - apply not_elem_of_nil.
Defined.

(** X7: a [remove_tag] that returned, called again with the same tap name
    and the same keys, returns and changes nothing. *)
Theorem X7_remove_tag_twice
    tap_name (tags_keys : list string) (taps taps1 : registry) :
  remove_tag tap_name tags_keys taps = (inr taps1, taps1) →
  remove_tag tap_name tags_keys taps1 = (inr taps1, taps1).
Proof.
  rewrite !remove_tag_run.
  destruct (decide (tap_name = "all")) as [Hall|Hall];
    [|destruct (decide (is_Some (taps !! tap_name))) as [Hreg|Hreg]];
    intros [= <-].
  - cbn zeta. rewrite <- map_fmap_compose.
    assert (Heq : (λ t, foldl remove_tag_record t tags_keys)
                    ∘ (λ t, foldl remove_tag_record t tags_keys) <$> taps
                  = (λ t, foldl remove_tag_record t tags_keys) <$> taps).
    { apply map_fmap_ext. intros n t _. apply foldl_remove_tag_record_twice. }
    by rewrite Heq.
  - rewrite decide_True by by apply lookup_alter_is_Some.
    cbn zeta. rewrite alter_alter_eq.
    assert (Heq : alter ((λ t, foldl remove_tag_record t tags_keys)
                         ∘ (λ t, foldl remove_tag_record t tags_keys))
                    tap_name taps
                  = alter (λ t, foldl remove_tag_record t tags_keys) tap_name taps).
    { apply alter_ext. intros t _. apply foldl_remove_tag_record_twice. }
    by rewrite Heq.
Qed.

(** [remove_tag("all", ["config", "tags", "filter"])] twice on the tagged
    ["t1"]. *)
Lemma X7_t1_twice :
  remove_tag "all" ["config"; "tags"; "filter"]
    (remove_tag "all" ["config"; "tags"; "filter"] t1_tagged).2
  = (inr (remove_tag "all" ["config"; "tags"; "filter"] t1_tagged).2,
     (remove_tag "all" ["config"; "tags"; "filter"] t1_tagged).2).
Proof.
  apply (X7_remove_tag_twice "all" ["config"; "tags"; "filter"] t1_tagged).
  by vm_compute.
Defined.

(** ** A record without its [config] or [filter] map *)

Lemma remove_from_run f name (args : list string) (taps : registry) :
  remove_from f name args taps =
  match taps !! name with
  | Some t =>
      match field_of f t with
      | Some d =>
          let taps' :=
            <[name := match f with
                      | Config =>
                          set_config (Some (UtilsManager.remove_configs d args)) t
                      | Filter =>
                          set_filter (Some (UtilsManager.remove_filters d args)) t
                      end]> taps in
          (inr taps', taps')
      | None => (inl KeyError, taps)
      end
  | None => (inl AssertionError, taps)
  end.
Proof.
  destruct f; cbn [remove_from field_of].
  - rewrite remove_configs_run. destruct (taps !! name) as [t|]; [|done].
    by destruct (config t).
  - rewrite remove_filter_run. destruct (taps !! name) as [t|]; [|done].
    by destruct (filter t).
Qed.

Lemma add_to_run f name (kwargs : dict) (taps : registry) :
  add_to f name kwargs taps =
  match taps !! name with
  | Some t =>
      let taps' :=
        <[name := match f with
                  | Config =>
                      set_config
                        (Some (UtilsManager.add_configs (default ∅ (config t)) kwargs)) t
                  | Filter =>
                      set_filter
                        (Some (UtilsManager.add_filters (default ∅ (filter t)) kwargs)) t
                  end]> taps in
      (inr taps', taps')
  | None => (inl KeyError, taps)
  end.
Proof. destruct f; [apply add_configs_run|apply add_filters_run]. Qed.

(** X8: on a registered tap whose record has no [config] map,
    [remove_configs] raises [KeyError] and leaves the registry as it was,
    while [add_configs] returns and leaves the tap with a [config] map,
    its [input_type] and [tags] being as they were, after which
    [remove_configs] returns; the same holds of [remove_filter] and
    [add_filters] for the [filter] map. *)
Theorem X8_missing_map f name (taps : registry) t :
  taps !! name = Some t →
  field_of f t = None →
  (∀ args, remove_from f name args taps = (inl KeyError, taps))
  ∧ (∀ kwargs : dict,
       ∃ taps' t',
         add_to f name kwargs taps = (inr taps', taps')
         ∧ taps' !! name = Some t'
         ∧ is_Some (field_of f t')
         ∧ input_type t' = input_type t
         ∧ tags t' = tags t
         ∧ ∀ args, ∃ taps'', remove_from f name args taps' = (inr taps'', taps'')).
Proof.
  intros Ht Hnone. split.
  - intros args. by rewrite remove_from_run, Ht, Hnone.
  - intros kwargs. rewrite add_to_run, Ht. do 2 eexists.
    split; [done|]. rewrite lookup_insert_eq. split; [done|].
    split; [destruct f; by eexists|]. split; [by destruct f|].
    split; [by destruct f|].
    intros args. rewrite remove_from_run, lookup_insert_eq.
    destruct f; cbn; by eexists.
Qed.

(** ["t1"] after [remove_tag("t1", ["config"])]: [remove_configs] raises
    [KeyError]. *)
Lemma X8_t1_without_config :
  remove_from Config "t1" ["iface"] (remove_tag "t1" ["config"] t1_tagged).2
  = (inl KeyError, (remove_tag "t1" ["config"] t1_tagged).2).
Proof.
  refine (proj1 (X8_missing_map Config "t1" (remove_tag "t1" ["config"] t1_tagged).2
    (Tap (Some "pcap") None (Some {[ "bpf" := VStr "tcp port 80" ]})
       (Some {[ "team" := VStr "net" ]})) _ _) ["iface"]).
  - by vm_compute.
  - done.
Defined.

(** ** Names and other taps *)

(** X9: the registered names change under an add-variant call, which
    registers its name, and under [remove_tap], which takes its name
    away, and under no other call, whether the call returns or raises. *)
Theorem X9_registered_names (c : call) (taps taps' : registry) r :
  run c taps = (r, taps') → dom taps' = names_after c (dom taps).
Proof.
  destruct c as [v n kw|n kw|n kw|n items|n|n args|n args|n tks];
    cbn [run names_after].
  - rewrite add_variant_run. intros [= <- <-]. apply dom_insert_L.
  - rewrite add_configs_run. destruct (taps !! n) as [t|] eqn:Ht;
      intros [= <- <-]; [|done]. by apply dom_insert_lookup_L.
  - rewrite add_filters_run. destruct (taps !! n) as [t|] eqn:Ht;
      intros [= <- <-]; [|done]. by apply dom_insert_lookup_L.
  - rewrite add_tag_run. repeat case_decide; intros [= <- <-];
      [apply dom_fmap_L|apply dom_alter_L|done].
  - rewrite remove_tap_run. case_decide as Hreg; intros [= <- <-].
    + apply dom_delete_L.
    + rewrite <- elem_of_dom in Hreg. symmetry.
      by apply difference_disjoint_L, disjoint_singleton_r.
  - rewrite remove_configs_run.
    destruct (taps !! n) as [t|] eqn:Ht; [destruct (config t)|];
      intros [= <- <-]; [|done..]. by apply dom_insert_lookup_L.
  - rewrite remove_filter_run.
    destruct (taps !! n) as [t|] eqn:Ht; [destruct (filter t)|];
      intros [= <- <-]; [|done..]. by apply dom_insert_lookup_L.
  - rewrite remove_tag_run. repeat case_decide; intros [= <- <-];
      [apply dom_fmap_L|apply dom_alter_L|done].
Qed.

(** After [add_tag("all", ...)] on the registry with the taps ["all"] and
    ["t1"], these two names are registered. *)
Lemma X9_all_and_t1_names :
  dom (run (AddTag "all" {[ "env" := VStr "prod" ]}) all_and_t1).2
  = dom all_and_t1.
Proof.
  apply (X9_registered_names (AddTag "all" {[ "env" := VStr "prod" ]})
           all_and_t1 _ (run (AddTag "all" {[ "env" := VStr "prod" ]}) all_and_t1).1).
  by destruct (run (AddTag "all" {[ "env" := VStr "prod" ]}) all_and_t1).
Defined.

(** X10: a call leaves the record of every tap that it does not reach as
    it was, whether it returns or raises: the calls on a name reach the tap
    of that name, and the tag calls on ["all"] reach every tap. *)
Theorem X10_other_taps (c : call) other (taps taps' : registry) r :
  run c taps = (r, taps') →
  call_reaches c other = false →
  taps' !! other = taps !! other.
Proof.
  intros [(e & -> & ->)|[-> Hafter]]%run_lookup Hother; [done|].
  rewrite Hafter.
  destruct c as [v n kw|n kw|n kw|n items|n|n args|n args|n tks];
    cbn [record_after call_reaches] in *;
    try (apply bool_decide_eq_false in Hother; by rewrite decide_False);
    by rewrite Hother.
Qed.

(** [remove_tap("all")] on the registry with the taps ["all"] and ["t1"]
    leaves ["t1"] as it was. *)
Lemma X10_remove_all_keeps_t1 :
  (run (RemoveTap "all") all_and_t1).2 !! "t1" = all_and_t1 !! "t1".
Proof.
  apply (X10_other_taps (RemoveTap "all") "t1" all_and_t1 _
           (run (RemoveTap "all") all_and_t1).1).
  - by destruct (run (RemoveTap "all") all_and_t1).
  - by vm_compute.
Defined.

(** ** The input type *)

Lemma foldl_remove_tag_record_input_type (tags_keys : list string) :
  "input_type" ∉ tags_keys →
  ∀ t, input_type (foldl remove_tag_record t tags_keys) = input_type t.
Proof.
  induction tags_keys as [|key l IH]; intros Hnotin t; [done|].
  apply not_elem_of_cons in Hnotin as [Hne Hnotin].
  cbn [foldl]. rewrite IH by done. unfold remove_tag_record.
  destruct (tags t); [|done]. rewrite tap_pop_fields. cbn.
  by rewrite decide_False by done.
Qed.

(** X11: an add-variant call stores the label of its method as the
    [input_type] of the tap: ["pcap"], ["flow"] or ["dnstap"].  For a tap
    that is registered before and after a call, whether the call returns
    or raises, the [input_type] is as it was, unless the call creates the
    tap again or is a [remove_tag] that reaches the tap with
    ["input_type"] among its keys. *)
Theorem X11_input_type :
  (∀ v name (kwargs : dict) (taps : registry),
     ∃ taps' t,
       add_variant v name kwargs taps = (inr taps', taps')
       ∧ taps' !! name = Some t
       ∧ input_type t = Some (input_type_label v))
  ∧ (∀ (c : call) name (taps taps' : registry) r t t',
       run c taps = (r, taps') →
       taps !! name = Some t →
       taps' !! name = Some t' →
       may_change_input_type name c = false →
       input_type t' = input_type t).
Proof.
  split.
  - intros v name kwargs taps. rewrite add_variant_run. do 2 eexists.
    split; [done|]. by rewrite lookup_insert_eq.
  - intros c name taps taps' r t t' [(e & -> & ->)|[-> Hafter]]%run_lookup Ht Ht' Hkeep.
    { rewrite Ht in Ht'. by simplify_eq. }
    rewrite Hafter, Ht in Ht'. clear Hafter.
    destruct c as [v n kw|n kw|n kw|n items|n|n args|n args|n tks];
      cbn [record_after may_change_input_type] in *.
    + apply bool_decide_eq_false in Hkeep. rewrite decide_False in Ht' by done.
      by simplify_eq.
    + case_decide; cbn in Ht'; by simplify_eq.
    + case_decide; cbn in Ht'; by simplify_eq.
    + destruct (reaches n name); cbn in Ht'; simplify_eq; [|done].
      rewrite add_tags_record. by case_decide.
    + case_decide; cbn in Ht'; by simplify_eq.
    + case_decide; cbn in Ht'; by simplify_eq.
    + case_decide; cbn in Ht'; by simplify_eq.
    + destruct (reaches n name); cbn in Ht', Hkeep; simplify_eq; [|done].
      apply bool_decide_eq_false in Hkeep.
      by apply foldl_remove_tag_record_input_type.
Qed.

(** The tagged ["t1"] is still a pcap tap after
    [remove_tag("t1", ["config", "tags"])]. *)
Lemma X11_t1_stays_pcap :
  ∃ t',
    (run (RemoveTag "t1" ["config"; "tags"]) t1_tagged).2 !! "t1" = Some t'
    ∧ input_type t' = Some "pcap".
Proof.
  eexists. split; [by vm_compute|].
  refine (proj2 X11_input_type (RemoveTag "t1" ["config"; "tags"]) "t1" t1_tagged
    (run (RemoveTag "t1" ["config"; "tags"]) t1_tagged).2
    (run (RemoveTag "t1" ["config"; "tags"]) t1_tagged).1
    (set_tags (Some {[ "team" := VStr "net" ]}) t1_entry) _ _ _ _ _).
  - by destruct (run (RemoveTag "t1" ["config"; "tags"]) t1_tagged).
  - by vm_compute.
  - by vm_compute.
  - by vm_compute.
Defined.

(** ** Keyword arguments *)

(** X12: an add-variant method reads its keyword arguments under the keys
    of its own lists only, and reads a key that is not passed as [None]:
    two calls whose keyword arguments read the same under those keys leave
    the same registry, whatever else the arguments hold. *)
Theorem X12_only_read_keys_matter
    v name (kwargs1 kwargs2 : dict) (taps : registry) :
  (∀ key, key ∈ read_keys v → kwargs_get kwargs1 key = kwargs_get kwargs2 key) →
  add_variant v name kwargs1 taps = add_variant v name kwargs2 taps.
Proof.
  intros Hsame. rewrite !add_variant_run.
  assert (Hconfigs :
    (λ key, (key, kwargs_get kwargs1 key)) <$> config_keys v
    = (λ key, (key, kwargs_get kwargs2 key)) <$> config_keys v).
  { apply list_fmap_ext. intros i key Hkey. rewrite Hsame; [done|].
    apply elem_of_app. left. by eapply list_elem_of_lookup_2. }
  assert (Hfilters :
    (λ key, (key, kwargs_get kwargs1 key)) <$> filter_keys v
    = (λ key, (key, kwargs_get kwargs2 key)) <$> filter_keys v).
  { apply list_fmap_ext. intros i key Hkey. rewrite Hsame; [done|].
    apply elem_of_app. right. by eapply list_elem_of_lookup_2. }
  by rewrite Hconfigs, Hfilters.
Qed.

(** [add_flow("t2", port=2055)] and [add_flow("t2", port=2055, bpf="tcp",
    bind=None)]. *)
Lemma X12_flow_ignores_bpf :
  add_variant Flow "t2" {[ "port" := VInt 2055 ]} ∅
  = add_variant Flow "t2"
      {[ "port" := VInt 2055; "bpf" := VStr "tcp"; "bind" := VNone ]} ∅.
Proof.
  apply X12_only_read_keys_matter. intros key Hkey.
  cbn in Hkey. repeat (apply elem_of_cons in Hkey as [->|Hkey]; [by vm_compute|]).
  by apply not_elem_of_nil in Hkey.
Defined.

(** ** Creation and removal *)

(** X13: [remove_tap] after an add-variant call with the same name returns
    the registry without that name; when the name was not registered
    before the add-variant call, this is the registry that the call
    started from. *)
Theorem X13_add_then_remove_tap v name (kwargs : dict) (taps : registry) :
  ∃ taps1,
    add_variant v name kwargs taps = (inr taps1, taps1)
    ∧ remove_tap name taps1 = (inr (delete name taps), delete name taps)
    ∧ (taps !! name = None → delete name taps = taps).
Proof.
  rewrite add_variant_run. eexists. split; [done|]. cbn zeta. split.
  - rewrite remove_tap_run, decide_True by (rewrite lookup_insert_eq; by eexists).
    by rewrite delete_insert_eq.
  - apply delete_id.
Qed.

(** ** The configuration calls *)

(** X14: [add_configs] and [remove_configs] store into the [config] map of
    the record and into nothing else, and [add_filters] and
    [remove_filter] into the [filter] map and into nothing else: whether
    the call returns or raises, every tap is still registered, with the
    [input_type], the [tags] and the other map that it had. *)
Theorem X14_configuration_calls_write_one_map
    (c : call) f name (taps taps' : registry) r t :
  written_field c = Some f →
  run c taps = (r, taps') →
  taps !! name = Some t →
  ∃ t',
    taps' !! name = Some t'
    ∧ input_type t' = input_type t
    ∧ tags t' = tags t
    ∧ (∀ g, g ≠ f → field_of g t' = field_of g t).
Proof.
  intros Hf [(e & -> & ->)|[-> Hafter]]%run_lookup Ht.
  { by exists t. }
  rewrite Hafter, Ht.
  destruct c as [v n kw|n kw|n kw|n items|n|n args|n args|n tks];
    cbn [written_field record_after] in *; simplify_eq;
    (case_decide; [|by exists t]); cbn; eexists; (split; [done|]); cbn;
    (split; [done|]); (split; [done|]); by intros [].
Qed.

(** [add_filters("t1", bpf="udp")] on the tagged ["t1"]: the [config] map
    and the tags are as they were. *)
Lemma X14_t1_add_filters :
  ∃ t',
    (run (AddFilters "t1" {[ "bpf" := VStr "udp" ]}) t1_tagged).2 !! "t1" = Some t'
    ∧ input_type t' = Some "pcap"
    ∧ tags t' = Some {[ "team" := VStr "net" ]}
    ∧ config t' = Some {[ "iface" := VStr "eth0" ]}.
Proof.
  destruct (X14_configuration_calls_write_one_map
              (AddFilters "t1" {[ "bpf" := VStr "udp" ]}) Filter "t1" t1_tagged
              (run (AddFilters "t1" {[ "bpf" := VStr "udp" ]}) t1_tagged).2
              (run (AddFilters "t1" {[ "bpf" := VStr "udp" ]}) t1_tagged).1
              (set_tags (Some {[ "team" := VStr "net" ]}) t1_entry))
    as (t' & Ht' & Hty & Htags & Hother).
  - done.
  - by destruct (run (AddFilters "t1" {[ "bpf" := VStr "udp" ]}) t1_tagged).
  - by vm_compute.
  - exists t'. split; [done|]. split; [done|]. split; [done|].
    by apply (Hother Config).
Defined.
